(** * Priority search on kd-trees (kd_pr_search.cpp)

    A shallow embedding of the priority search of the ANN library, in the
    variant of [lib/ann_1.1_char_fast/src/kd_pr_search.cpp]:
    [ANNkd_tree::annkPriSearch], [ANNkd_split::ann_pri_search] and
    [ANNkd_leaf::ann_pri_search].

    Conventions of the embedding.
    - [ANNcoord] and [ANNdist] are declared in ANN.h, which is not part of the
      sources at hand; both are taken as mathematical integers [Z], so no
      wrap-around is modelled.
    - The error bound [eps] and the error factor [ANNprMaxErr] are C
      doubles.  The store is parametrised by the type of the error factor,
      and the loop of [annkPriSearch] by the evaluation of its termination
      test ([pri_loop_with], [annkPriSearch_with]); the handlers never read
      the error factor.  Two arithmetics are given for the doubles: exact,
      with rationals [Q] ([pri_loop], [annkPriSearch]), and binary64, with
      the primitive floats of Rocq ([pri_loop_ieee], [annkPriSearch_ieee]).
      What depends on the value of [(1+eps)^2] is stated in binary64
      arithmetic; what holds whatever the termination test decides is
      stated of [annkPriSearch_with]; the statements in exact arithmetic
      are those at [eps = 0], where the error factor is 1 in both
      arithmetics, and those in which the decisions of the test play no
      part.
    - Arrays ([ANNprQ], [ANNprPts], the box bounds) are lists read with [nth];
      a read outside the list (undefined behaviour in C++) yields [0].  Every
      theorem that depends on array contents states the sizes it needs.
    - The per-call [ANNprTempStore] is threaded explicitly through the
      handlers. *)

From Stdlib Require Import ZArith List Lia Bool QArith Lqa Permutation Sorted.
From Stdlib Require Import PrimFloat FloatOps SpecFloat.
Import ListNotations.
Local Open Scope Z_scope.

(** ** Scalar types and the metric macros *)

Abbreviation ANNcoord := Z (only parsing).
Abbreviation ANNdist := Z (only parsing).
Abbreviation ANNidx := Z (only parsing).

(** Distances extended with the value that [max_key] and
    [ith_smallest_key] return when no entry is available. *)
Inductive PQKkey : Type :=
| Fin (d : ANNdist)
| ANN_DIST_INF.

(** Modelled from the spec: the invalid index stored next to a distance of
    +infinity when fewer than k entries are held. *)
Definition ANN_NULL_IDX : ANNidx := -1.

(** The macros [ANN_POW], [ANN_SUM] and [ANN_DIFF] come from ANN.h, which is
    not among the sources at hand.  They are taken as the ANN library has
    them for the squared Euclidean metric: a coordinate difference
    contributes its square, contributions add up, and [ANN_DIFF x y] is the
    incremental update [y - x] that takes the old contribution [x] of one
    axis out and puts the new contribution [y] in.  Lemma [ANN_DIFF_forced]
    below shows that this is the only reading under which [new_dist] is
    what the source calls it, the "distance to further box". *)
Definition ANN_POW (v : ANNdist) : ANNdist := v * v.
Definition ANN_SUM (x y : ANNdist) : ANNdist := x + y.
Definition ANN_DIFF (x y : ANNdist) : ANNdist := y - x.

(** [ANN_POW] at type double, used once for the error factor: in exact
    arithmetic, and in binary64 arithmetic, where the product is rounded to
    the nearest double and is +infinity beyond the largest one. *)
Definition ANN_POW_dbl (v : Q) : Q := (v * v)%Q.
Definition ANN_POW_ieee (v : float) : float := (v * v)%float.

(** Scan width of the leaf handler: 4 chunks of 32 coordinates
    ("KNS: note, hard-coding 128-dim features"). *)
Definition SCAN_CHUNKS : nat := 4.
Definition SCAN_CHUNK_LEN : nat := 32.
Definition SCAN_WIDTH : nat := 128.

(** ** The kd-tree *)

(** [KD_TRIVIAL] is the shared empty leaf; the split handler compares child
    pointers against it, so it is a constructor of its own.  A leaf holds its
    bucket [bkt]; its field [n_pts] is the bucket's length. *)
Inductive ANNkd_node : Type :=
| KD_TRIVIAL
| ANNkd_leaf (bkt : list ANNidx)
| ANNkd_split (cut_dim : nat) (cut_val : ANNcoord)
              (cd_bnds_lo cd_bnds_hi : ANNcoord)
              (child_lo child_hi : ANNkd_node).

Definition isLeaf (np : ANNkd_node) : bool :=
  match np with
  | ANNkd_split _ _ _ _ _ _ => false
  | _ => true
  end.

Definition is_trivial (np : ANNkd_node) : bool :=
  match np with
  | KD_TRIVIAL => true
  | _ => false
  end.

(** Bucket of a leaf ([KD_TRIVIAL] has [n_pts = 0]). *)
Definition bucket (np : ANNkd_node) : list ANNidx :=
  match np with
  | ANNkd_leaf bkt => bkt
  | _ => []
  end.

Record ANNkd_tree : Type := mkTree {
  dim : nat;
  n_pts : nat;
  pts : list ANNcoord;
  root : ANNkd_node;
  bnd_box_lo : list ANNcoord;
  bnd_box_hi : list ANNcoord
}.

(** Number of nodes below (and including) a node. *)
Fixpoint kd_size (np : ANNkd_node) : nat :=
  match np with
  | ANNkd_split _ _ _ _ lo hi => S (kd_size lo + kd_size hi)
  | _ => 1%nat
  end.

(** ** ANNmin_k: the k smallest keys seen so far *)

Module MinK.

Record t : Type := mk { k : Z; items : list (ANNdist * ANNidx) }.

Definition create (max : Z) : t := mk max [].

(** Sorted insertion; the new entry goes behind the entries whose key is not
    larger. *)
Fixpoint ins (e : ANNdist * ANNidx) (l : list (ANNdist * ANNidx))
  : list (ANNdist * ANNidx) :=
  match l with
  | [] => [e]
  | x :: l' => if fst e <? fst x then e :: l else x :: ins e l'
  end.

Definition worst (l : list (ANNdist * ANNidx)) : option ANNdist :=
  match rev l with
  | [] => None
  | x :: _ => Some (fst x)
  end.

(** Modelled from the spec: pr_queue_k.h (class ANNmin_k) is absent; the
    current worst distance among the held entries, or +infinity if under
    capacity. *)
Definition max_key (s : t) : PQKkey :=
  if Z.of_nat (length (items s)) <? k s then ANN_DIST_INF
  else match worst (items s) with
       | Some d => Fin d
       | None => ANN_DIST_INF
       end.

(** Modelled from the spec: pr_queue_k.h is absent; if fewer than k entries
    are held, add and re-sort; otherwise, if the distance is strictly less
    than the current maximum held, replace that maximum entry. *)
Definition insert (kv : ANNdist) (inf : ANNidx) (s : t) : t :=
  if Z.of_nat (length (items s)) <? k s then mk (k s) (ins (kv, inf) (items s))
  else match worst (items s) with
       | Some d =>
           if kv <? d then mk (k s) (ins (kv, inf) (removelast (items s)))
           else s
       | None => s
       end.

(** Modelled from the spec: pr_queue_k.h is absent; the i-th pair in
    ascending order, and the sentinel (+infinity, invalid index) beyond the
    entries held. *)
Definition ith_smallest_key (i : nat) (s : t) : PQKkey :=
  match nth_error (items s) i with
  | Some e => Fin (fst e)
  | None => ANN_DIST_INF
  end.

Definition ith_smallest_info (i : nat) (s : t) : ANNidx :=
  match nth_error (items s) i with
  | Some e => snd e
  | None => ANN_NULL_IDX
  end.

Definition keys (s : t) : list ANNdist := map fst (items s).

End MinK.

(** ** ANNpr_queue: the priority queue of boxes *)

Module PrQueue.

Definition entry : Type := (ANNdist * ANNkd_node)%type.

Record t : Type := mk { max_size : nat; entries : list entry }.

Definition create (max : nat) : t := mk max [].

Fixpoint ins (e : entry) (l : list entry) : list entry :=
  match l with
  | [] => [e]
  | x :: l' => if fst e <? fst x then e :: l else x :: ins e l'
  end.

(** Modelled from the spec: pr_queue.h (class ANNpr_queue) is absent; the
    queue is kept in ascending order of priority, so that [extr_min] removes
    and returns the lowest-priority entry. *)
Definition insert (kv : ANNdist) (inf : ANNkd_node) (s : t) : t :=
  mk (max_size s) (ins (kv, inf) (entries s)).

Definition non_empty (s : t) : bool :=
  match entries s with
  | [] => false
  | _ => true
  end.

Definition extr_min (s : t) : option (entry * t) :=
  match entries s with
  | [] => None
  | e :: l => Some (e, mk (max_size s) l)
  end.

End PrQueue.

(** ** The per-call store *)

(** [F] is the type of the error factor: [Q] in exact arithmetic, [float]
    in binary64 arithmetic. *)
Record ANNprTempStore_of (F : Type) : Type := mkStore {
  ANNprMaxErr : F;
  ANNprDim : nat;
  ANNprQ : list ANNcoord;
  ANNprPts : list ANNcoord;
  ANNptsVisited : Z;
  ANNprPointMK : MinK.t;
  ANNprBoxPQ : PrQueue.t
}.

Arguments mkStore {F} ANNprMaxErr%_Q ANNprDim%_nat ANNprQ%_list ANNprPts%_list
          ANNptsVisited%_Z ANNprPointMK ANNprBoxPQ.
Arguments ANNprMaxErr {F}.
Arguments ANNprDim {F}.
Arguments ANNprQ {F}.
Arguments ANNprPts {F}.
Arguments ANNptsVisited {F}.
Arguments ANNprPointMK {F}.
Arguments ANNprBoxPQ {F}.

Abbreviation ANNprTempStore := (ANNprTempStore_of Q).

Definition set_PointMK {F : Type} (m : MinK.t) (st : ANNprTempStore_of F)
  : ANNprTempStore_of F :=
  mkStore (ANNprMaxErr st) (ANNprDim st) (ANNprQ st) (ANNprPts st)
          (ANNptsVisited st) m (ANNprBoxPQ st).

Definition set_BoxPQ {F : Type} (b : PrQueue.t) (st : ANNprTempStore_of F)
  : ANNprTempStore_of F :=
  mkStore (ANNprMaxErr st) (ANNprDim st) (ANNprQ st) (ANNprPts st)
          (ANNptsVisited st) (ANNprPointMK st) b.

Definition set_ptsVisited {F : Type} (v : Z) (st : ANNprTempStore_of F)
  : ANNprTempStore_of F :=
  mkStore (ANNprMaxErr st) (ANNprDim st) (ANNprQ st) (ANNprPts st)
          v (ANNprPointMK st) (ANNprBoxPQ st).

(** ** ANNkd_leaf::ann_pri_search *)

(** [dist > min_dist] *)
Definition exceeds (dist : ANNdist) (min_dist : PQKkey) : bool :=
  match min_dist with
  | Fin m => m <? dist
  | ANN_DIST_INF => false
  end.

(** The inner loop [for (d2 = 0; d2 < 32; d2++)]: [qq] and [pp] are the
    positions of the two running pointers in the query and in the point
    array. *)
Fixpoint scan_chunk (n : nat) (q ps : list ANNcoord) (qq pp : nat)
         (dist : ANNdist) : ANNdist :=
  match n with
  | O => dist
  | S n' =>
      let t := nth qq q 0 - nth pp ps 0 in
      scan_chunk n' q ps (S qq) (S pp) (ANN_SUM dist (ANN_POW t))
  end.

(** The outer loop [for (d = 0; d < 4; d++)] with its [break]; the result is
    the final value of [d] and of [dist]. *)
Fixpoint scan_point (todo : nat) (d : nat) (q ps : list ANNcoord)
         (qq pp : nat) (dist : ANNdist) (min_dist : PQKkey)
  : nat * ANNdist :=
  match todo with
  | O => (d, dist)
  | S todo' =>
      let dist' := scan_chunk SCAN_CHUNK_LEN q ps qq pp dist in
      if exceeds dist' min_dist then (d, dist')
      else scan_point todo' (S d) q ps (qq + SCAN_CHUNK_LEN)
                      (pp + SCAN_CHUNK_LEN) dist' min_dist
  end.

(** First coordinate of the point with index [i]:
    [store.ANNprPts + (unsigned long long) bkt[i] * 128]. *)
Definition point_offset (i : ANNidx) : nat := (Z.to_nat i * SCAN_WIDTH)%nat.

(** The loop over the bucket.  [min_dist] is the local copy of the pruning
    bound, refreshed after each insertion.  The prefetch loop before it does
    not change the store and is left out. *)
Fixpoint leaf_scan (bkt : list ANNidx) (q ps : list ANNcoord)
         (pmk : MinK.t) (min_dist : PQKkey) : MinK.t :=
  match bkt with
  | [] => pmk
  | i :: bkt' =>
      let '(d, dist) :=
        scan_point SCAN_CHUNKS 0 q ps 0 (point_offset i) 0 min_dist in
      if (SCAN_CHUNKS <=? d)%nat then
        let pmk' := MinK.insert dist i pmk in
        leaf_scan bkt' q ps pmk' (MinK.max_key pmk')
      else leaf_scan bkt' q ps pmk min_dist
  end.

Definition ANNkd_leaf_ann_pri_search {F : Type} (bkt : list ANNidx)
           (box_dist : ANNdist) (st : ANNprTempStore_of F)
  : ANNprTempStore_of F :=
  let min_dist := MinK.max_key (ANNprPointMK st) in
  let pmk := leaf_scan bkt (ANNprQ st) (ANNprPts st) (ANNprPointMK st)
                       min_dist in
  set_ptsVisited (ANNptsVisited st + Z.of_nat (length bkt))
                 (set_PointMK pmk st).

(** ** ANNkd_split::ann_pri_search *)

(** [box_diff] with its clamp at zero. *)
Definition clamp0 (x : ANNdist) : ANNdist := if x <? 0 then 0 else x.

(** Distance to the child visited later. *)
Definition new_dist (box_dist box_diff cut_diff : ANNdist) : ANNdist :=
  ANN_SUM box_dist (ANN_DIFF (ANN_POW box_diff) (ANN_POW cut_diff)).

(** "enqueue if not trivial" *)
Definition enqueue_far {F : Type} (nd : ANNdist) (far : ANNkd_node)
           (st : ANNprTempStore_of F) : ANNprTempStore_of F :=
  if is_trivial far then st
  else set_BoxPQ (PrQueue.insert nd far (ANNprBoxPQ st)) st.

(** The call [np->ann_pri_search(box_dist, store)] behind the test of
    [isLeaf]: both handlers, the split handler calling itself on the closer
    child.  [KD_TRIVIAL] is a leaf with an empty bucket. *)
Fixpoint ann_pri_search {F : Type} (np : ANNkd_node) (box_dist : ANNdist)
         (st : ANNprTempStore_of F) : ANNprTempStore_of F :=
  match np with
  | KD_TRIVIAL => ANNkd_leaf_ann_pri_search [] box_dist st
  | ANNkd_leaf bkt => ANNkd_leaf_ann_pri_search bkt box_dist st
  | ANNkd_split cut_dim cut_val lo hi child_lo child_hi =>
      let cut_diff := nth cut_dim (ANNprQ st) 0 - cut_val in
      if cut_diff <? 0 then
        let box_diff := clamp0 (lo - nth cut_dim (ANNprQ st) 0) in
        let nd := new_dist box_dist box_diff cut_diff in
        ann_pri_search child_lo box_dist (enqueue_far nd child_hi st)
      else
        let box_diff := clamp0 (nth cut_dim (ANNprQ st) 0 - hi) in
        let nd := new_dist box_dist box_diff cut_diff in
        ann_pri_search child_hi box_dist (enqueue_far nd child_lo st)
  end.

(** ** ANNkd_tree::annkPriSearch *)

(** Modelled from the spec: annBoxDistance (kd_util.cpp) is absent; the
    squared distance from q to the bounding box, 0 if q lies inside it. *)
Definition box_axis (x lo hi : ANNcoord) : ANNdist :=
  if x <? lo then ANN_POW (lo - x)
  else if hi <? x then ANN_POW (x - hi)
  else 0.

Fixpoint annBoxDistance (q lo hi : list ANNcoord) (dim : nat) : ANNdist :=
  match dim with
  | O => 0
  | S d =>
      ANN_SUM (annBoxDistance q lo hi d)
              (box_axis (nth d q 0) (nth d lo 0) (nth d hi 0))
  end.

(** [ANNmaxPtsVisited != 0 && store.ANNptsVisited > ANNmaxPtsVisited] *)
Definition over_budget {F : Type} (ANNmaxPtsVisited : Z)
           (st : ANNprTempStore_of F) : bool :=
  negb (ANNmaxPtsVisited =? 0) && (ANNmaxPtsVisited <? ANNptsVisited st).

(** Why the while loop was left.  [FuelOut] belongs to the embedding only:
    [pri_loop_with_fuel] shows that it never occurs in [annkPriSearch]. *)
Inductive loop_exit : Type :=
| QueueEmpty
| BudgetExceeded
| BoundReached
| FuelOut.

(** One evaluation of the loop condition followed by one loop body: either
    the loop is left, or a node was dispatched to its handler. *)
Inductive iteration_of (F : Type) : Type :=
| Leave (why : loop_exit) (st : ANNprTempStore_of F)
| Dispatched (np : ANNkd_node) (box_dist : ANNdist)
             (st : ANNprTempStore_of F).

Arguments Leave {F}.
Arguments Dispatched {F}.

Abbreviation iteration := (iteration_of Q).

(** The final loop [for (int i = 0; i < k; i++)] filling [dd] and
    [nn_idx]. *)
Definition extract_dd (k : Z) (pmk : MinK.t) : list PQKkey :=
  map (fun i => MinK.ith_smallest_key i pmk) (seq 0 (Z.to_nat k)).

Definition extract_nn_idx (k : Z) (pmk : MinK.t) : list ANNidx :=
  map (fun i => MinK.ith_smallest_info i pmk) (seq 0 (Z.to_nat k)).

(** *** The function for any arithmetic of the doubles

    [stop box_dist store] stands for the comparison
    [box_dist * store.ANNprMaxErr >= store.ANNprPointMK->max_key()] of line
    131 and [maxErr] for the value [ANN_POW(1.0 + eps)] of line 106, both
    as the arithmetic of the doubles gives them. *)

Section AnyArithmetic.

Context {F : Type} (stop : ANNdist -> ANNprTempStore_of F -> bool).

Definition pri_iter_with (ANNmaxPtsVisited : Z) (st : ANNprTempStore_of F)
  : iteration_of F :=
  match PrQueue.extr_min (ANNprBoxPQ st) with
  | None => Leave QueueEmpty st
  | Some ((box_dist, np), rest) =>
      if over_budget ANNmaxPtsVisited st then Leave BudgetExceeded st
      else
        let st1 := set_BoxPQ rest st in
        if stop box_dist st1 then Leave BoundReached st1
        else Dispatched np box_dist (ann_pri_search np box_dist st1)
  end.

Fixpoint pri_loop_with (fuel : nat) (ANNmaxPtsVisited : Z)
         (st : ANNprTempStore_of F) : loop_exit * ANNprTempStore_of F :=
  match fuel with
  | O => (FuelOut, st)
  | S fuel' =>
      match pri_iter_with ANNmaxPtsVisited st with
      | Leave why st' => (why, st')
      | Dispatched _ _ st' => pri_loop_with fuel' ANNmaxPtsVisited st'
      end
  end.

(** The store as set up before the loop. *)
Definition init_store_with (maxErr : F) (T : ANNkd_tree) (q : list ANNcoord)
           (k : Z) : ANNprTempStore_of F :=
  let box_dist := annBoxDistance q (bnd_box_lo T) (bnd_box_hi T) (dim T) in
  mkStore maxErr (dim T) q (pts T) 0
          (MinK.create k)
          (PrQueue.insert box_dist (root T) (PrQueue.create (n_pts T))).

(** The search up to the end of the while loop. *)
Definition pri_search_run_with (maxErr : F) (T : ANNkd_tree)
           (ANNmaxPtsVisited : Z) (q : list ANNcoord) (k : Z)
  : loop_exit * ANNprTempStore_of F :=
  pri_loop_with (S (kd_size (root T))) ANNmaxPtsVisited
                (init_store_with maxErr T q k).

(** The pair of the arrays [nn_idx] and [dd] after the call.
    [ANNmaxPtsVisited] is the global budget (0: no budget). *)
Definition annkPriSearch_with (maxErr : F) (T : ANNkd_tree)
           (ANNmaxPtsVisited : Z) (q : list ANNcoord) (k : Z)
  : list ANNidx * list PQKkey :=
  let st := snd (pri_search_run_with maxErr T ANNmaxPtsVisited q k) in
  (extract_nn_idx k (ANNprPointMK st), extract_dd k (ANNprPointMK st)).

End AnyArithmetic.

(** *** Exact arithmetic

    The doubles as real numbers: no rounding, and +infinity above every
    product. *)

(** [box_dist * store.ANNprMaxErr >= store.ANNprPointMK->max_key()] *)
Definition bound_reached (box_dist : ANNdist) (st : ANNprTempStore) : bool :=
  match MinK.max_key (ANNprPointMK st) with
  | Fin m => Qle_bool (inject_Z m) (inject_Z box_dist * ANNprMaxErr st)
  | ANN_DIST_INF => false
  end.

(** The loop with this test, written out: [pri_loop] is [pri_loop_with]
    at [bound_reached] (lemma [pri_loop_exact_with]). *)
Definition pri_iter (ANNmaxPtsVisited : Z) (st : ANNprTempStore) : iteration :=
  match PrQueue.extr_min (ANNprBoxPQ st) with
  | None => Leave QueueEmpty st
  | Some ((box_dist, np), rest) =>
      if over_budget ANNmaxPtsVisited st then Leave BudgetExceeded st
      else
        let st1 := set_BoxPQ rest st in
        if bound_reached box_dist st1 then Leave BoundReached st1
        else Dispatched np box_dist (ann_pri_search np box_dist st1)
  end.

Fixpoint pri_loop (fuel : nat) (ANNmaxPtsVisited : Z) (st : ANNprTempStore)
  : loop_exit * ANNprTempStore :=
  match fuel with
  | O => (FuelOut, st)
  | S fuel' =>
      match pri_iter ANNmaxPtsVisited st with
      | Leave why st' => (why, st')
      | Dispatched _ _ st' => pri_loop fuel' ANNmaxPtsVisited st'
      end
  end.

(** The store as set up before the loop, with
    [store.ANNprMaxErr = ANN_POW(1.0 + eps)]. *)
Definition init_store (T : ANNkd_tree) (q : list ANNcoord) (k : Z) (eps : Q)
  : ANNprTempStore :=
  let box_dist := annBoxDistance q (bnd_box_lo T) (bnd_box_hi T) (dim T) in
  mkStore (ANN_POW_dbl (1 + eps)%Q) (dim T) q (pts T) 0
          (MinK.create k)
          (PrQueue.insert box_dist (root T) (PrQueue.create (n_pts T))).

(** The search up to the end of the while loop. *)
Definition pri_search_run (T : ANNkd_tree) (ANNmaxPtsVisited : Z)
           (q : list ANNcoord) (k : Z) (eps : Q)
  : loop_exit * ANNprTempStore :=
  pri_loop (S (kd_size (root T))) ANNmaxPtsVisited (init_store T q k eps).

(** [annkPriSearch]: the pair of the arrays [nn_idx] and [dd] after the
    call.  [ANNmaxPtsVisited] is the global budget (0: no budget). *)
Definition annkPriSearch (T : ANNkd_tree) (ANNmaxPtsVisited : Z)
           (q : list ANNcoord) (k : Z) (eps : Q)
  : list ANNidx * list PQKkey :=
  let st := snd (pri_search_run T ANNmaxPtsVisited q k eps) in
  (extract_nn_idx k (ANNprPointMK st), extract_dd k (ANNprPointMK st)).

(** *** Binary64 arithmetic

    The doubles as C has them (IEEE 754 binary64, round to nearest even),
    computed by the primitive floats of Rocq. *)

(** The conversion of an [ANNdist] operand to double. *)
Definition double_of_dist (d : ANNdist) : float :=
  SF2Prim (binary_normalize prec emax d 0 false).

(** The value of [max_key()] as a double.  [dist_inf] is the double that
    the constant [ANN_DIST_INF] of ANN.h, which is not among the sources at
    hand, converts to; it is a parameter of the search. *)
Definition double_of_key (dist_inf : float) (m : PQKkey) : float :=
  match m with
  | Fin d => double_of_dist d
  | ANN_DIST_INF => dist_inf
  end.

(** [box_dist * store.ANNprMaxErr >= store.ANNprPointMK->max_key()]: the
    product is rounded, and the comparison is false when an operand is not
    a number. *)
Definition bound_reached_ieee (dist_inf : float) (box_dist : ANNdist)
           (st : ANNprTempStore_of float) : bool :=
  PrimFloat.leb (double_of_key dist_inf (MinK.max_key (ANNprPointMK st)))
                (double_of_dist box_dist * ANNprMaxErr st)%float.


Definition pri_loop_ieee (dist_inf : float)
  : nat -> Z -> ANNprTempStore_of float
    -> loop_exit * ANNprTempStore_of float :=
  pri_loop_with (bound_reached_ieee dist_inf).


Definition pri_search_run_ieee (dist_inf : float) (T : ANNkd_tree)
           (ANNmaxPtsVisited : Z) (q : list ANNcoord) (k : Z) (eps : float)
  : loop_exit * ANNprTempStore_of float :=
  pri_search_run_with (bound_reached_ieee dist_inf)
                      (ANN_POW_ieee (1 + eps)%float) T ANNmaxPtsVisited q k.

Definition annkPriSearch_ieee (dist_inf : float) (T : ANNkd_tree)
           (ANNmaxPtsVisited : Z) (q : list ANNcoord) (k : Z) (eps : float)
  : list ANNidx * list PQKkey :=
  annkPriSearch_with (bound_reached_ieee dist_inf)
                     (ANN_POW_ieee (1 + eps)%float) T ANNmaxPtsVisited q k.

(** * Vocabulary of the statements

    Definitions that the theorems below are stated with; none of them is
    part of the program. *)

(** ** Stores and the descent of one dispatch

    A dispatched node is followed through its closer children down to one
    leaf ([near_leaf]); the children passed by are put into the queue on the
    way ([enqueue_path]). *)

(** Two stores with the same query, points, dimension and error factor. *)
Definition same_inputs {F : Type} (st st' : ANNprTempStore_of F) : Prop :=
  ANNprMaxErr st' = ANNprMaxErr st /\ ANNprDim st' = ANNprDim st /\
  ANNprQ st' = ANNprQ st /\ ANNprPts st' = ANNprPts st.

(** The store with another value in the dimension field. *)
Definition set_Dim (d : nat) (st : ANNprTempStore) : ANNprTempStore :=
  mkStore (ANNprMaxErr st) d (ANNprQ st) (ANNprPts st)
          (ANNptsVisited st) (ANNprPointMK st) (ANNprBoxPQ st).

(** The leaf at the end of the descent from [np]. *)
Fixpoint near_leaf (q : list ANNcoord) (np : ANNkd_node) : ANNkd_node :=
  match np with
  | ANNkd_split cd cv _ _ cl ch =>
      if nth cd q 0 - cv <? 0 then near_leaf q cl else near_leaf q ch
  | _ => np
  end.

(** The store when the descent from [np] arrives at that leaf. *)
Fixpoint enqueue_path {F : Type} (np : ANNkd_node) (box_dist : ANNdist)
         (st : ANNprTempStore_of F) : ANNprTempStore_of F :=
  match np with
  | ANNkd_split cd cv lo hi cl ch =>
      let x := nth cd (ANNprQ st) 0 in
      if x - cv <? 0 then
        enqueue_path cl box_dist
          (enqueue_far (new_dist box_dist (clamp0 (lo - x)) (x - cv)) ch st)
      else
        enqueue_path ch box_dist
          (enqueue_far (new_dist box_dist (clamp0 (x - hi)) (x - cv)) cl st)
  | _ => st
  end.

(** ** The loop *)

(** [x >= m] for a real [x] and an extended key [m]. *)
Definition reaches (x : Q) (m : PQKkey) : Prop :=
  match m with
  | Fin d => (inject_Z d <= x)%Q
  | ANN_DIST_INF => False
  end.

(** Number of tree nodes below the entries of a queue: the measure that
    decreases with every iteration of the loop. *)
Definition queue_weight (l : list PrQueue.entry) : nat :=
  list_sum (map (fun e => kd_size (snd e)) l).

(** The same for the queue of a store. *)
Definition store_weight {F : Type} (st : ANNprTempStore_of F) : nat :=
  queue_weight (PrQueue.entries (ANNprBoxPQ st)).

(** Largest bucket below a node. *)
Fixpoint max_bucket (np : ANNkd_node) : Z :=
  match np with
  | KD_TRIVIAL => 0
  | ANNkd_leaf bkt => Z.of_nat (length bkt)
  | ANNkd_split _ _ _ _ cl ch => Z.max (max_bucket cl) (max_bucket ch)
  end.

(** No bucket below a node of the queue is larger than [M]. *)
Definition buckets_within {F : Type} (M : Z) (st : ANNprTempStore_of F)
  : Prop :=
  Forall (fun e : PrQueue.entry => max_bucket (snd e) <= M)
         (PrQueue.entries (ANNprBoxPQ st)).

(** ** Brute force

    The reference against which the search is compared: the distances of all
    stored points, sorted by insertion, cut after the first [k]. *)

(** Sorted insertion into a list of distances. *)
Fixpoint insZ (x : Z) (l : list Z) : list Z :=
  match l with
  | [] => [x]
  | y :: l' => if x <? y then x :: l else y :: insZ x l'
  end.

(** Insertion sort. *)
Definition sortZ (l : list Z) : list Z := fold_right insZ [] l.

(** The [k] smallest elements, in ascending order. *)
Definition k_smallest (k : nat) (l : list Z) : list Z := firstn k (sortZ l).

(** The stored point with index [i], of [D] coordinates. *)
Definition stored_point (D : nat) (ps : list Z) (i : nat) : list Z :=
  firstn D (skipn (i * D) ps).

(** Squared Euclidean distance of two coordinate vectors. *)
Fixpoint sq_dist (q p : list Z) : Z :=
  match q, p with
  | x :: q', y :: p' => (x - y) * (x - y) + sq_dist q' p'
  | _, _ => 0
  end.

(** Brute force: the distance from the query to every stored point. *)
Definition brute_force_dists (T : ANNkd_tree) (q : list Z) : list Z :=
  map (fun i => sq_dist q (stored_point (dim T) (pts T) i))
      (seq 0 (n_pts T)).

(** ** The chunked scan *)

(** Squared distance over [n] coordinates, the query read from position
    [qq] and the point array from position [pp]. *)
Fixpoint sq_range (q ps : list Z) (qq pp n : nat) : Z :=
  match n with
  | O => 0
  | S n' =>
      (nth qq q 0 - nth pp ps 0) * (nth qq q 0 - nth pp ps 0)
      + sq_range q ps (S qq) (S pp) n'
  end.

(** Squared distance over the first [n] coordinates of the point stored at
    position [pp]. *)
Definition sq_prefix (q ps : list Z) (pp n : nat) : Z := sq_range q ps 0 pp n.

(** What the two nested loops compute, in terms of the partial sums after
    1, 2, 3 and 4 chunks (32, 64, 96 and 128 coordinates): the pair of the
    final [d] and [dist]. *)
Definition chunks_end (j : nat) : nat := (j * SCAN_CHUNK_LEN)%nat.

Definition scan_outcome (q ps : list Z) (pp : nat) (min_dist : PQKkey)
  : nat * Z :=
  if exceeds (sq_prefix q ps pp (chunks_end 1)) min_dist
  then (0%nat, sq_prefix q ps pp (chunks_end 1))
  else if exceeds (sq_prefix q ps pp (chunks_end 2)) min_dist
  then (1%nat, sq_prefix q ps pp (chunks_end 2))
  else if exceeds (sq_prefix q ps pp (chunks_end 3)) min_dist
  then (2%nat, sq_prefix q ps pp (chunks_end 3))
  else if exceeds (sq_prefix q ps pp (chunks_end 4)) min_dist
  then (3%nat, sq_prefix q ps pp (chunks_end 4))
  else (4%nat, sq_prefix q ps pp (chunks_end 4)).

(** Distance of the stored point [i] as the leaf handler measures it. *)
Definition scan_dist (q ps : list Z) (i : Z) : Z :=
  sq_prefix q ps (point_offset i) SCAN_WIDTH.

(** The candidate set after the points [seen] have been scanned: it holds
    the [K] smallest of their distances, each next to a point at that
    distance. *)
Definition holds_smallest (q ps : list Z) (K : nat) (seen : list Z)
           (s : MinK.t) : Prop :=
  MinK.k s = Z.of_nat K
  /\ MinK.keys s = k_smallest K (map (scan_dist q ps) seen)
  /\ Forall (fun e => fst e = scan_dist q ps (snd e) /\ In (snd e) seen)
            (MinK.items s).

(** ** Well-formed trees

    The invariant of the data model: the boxes of the nodes are obtained
    from the root box by the successive cuts, [cd_bnds] of a split node is
    the interval of its box along the cut axis, and every bucket point lies
    in the box of its leaf. *)

Fixpoint all_idx (np : ANNkd_node) : list Z :=
  match np with
  | KD_TRIVIAL => []
  | ANNkd_leaf bkt => bkt
  | ANNkd_split _ _ _ _ cl ch => all_idx cl ++ all_idx ch
  end.

(** Box bounds are functions of the axis; [fupd] moves one bound. *)
Definition fupd (f : nat -> Z) (i : nat) (v : Z) : nat -> Z :=
  fun j => if (j =? i)%nat then v else f j.

(** The point with index [i], of [D] coordinates, lies in the box. *)
Definition in_box (D : nat) (ps : list Z) (lo hi : nat -> Z) (i : Z) : Prop :=
  forall j, (j < D)%nat ->
            lo j <= nth (Z.to_nat i * D + j) ps 0 <= hi j.

(** A checker for [in_box], to establish [wf_tree] of concrete trees. *)
Definition in_boxb (D : nat) (ps : list Z) (lo hi : nat -> Z) (i : Z) : bool :=
  forallb (fun j => (lo j <=? nth (Z.to_nat i * D + j) ps 0)
                    && (nth (Z.to_nat i * D + j) ps 0 <=? hi j))
          (seq 0 D).

Fixpoint wf_node (D : nat) (ps : list Z) (lo hi : nat -> Z)
         (np : ANNkd_node) : Prop :=
  match np with
  | KD_TRIVIAL => True
  | ANNkd_leaf bkt => Forall (in_box D ps lo hi) bkt
  | ANNkd_split cd cv clo chi cl ch =>
      (cd < D)%nat /\ clo = lo cd /\ chi = hi cd /\ lo cd <= cv <= hi cd
      /\ wf_node D ps lo (fupd hi cd cv) cl
      /\ wf_node D ps (fupd lo cd cv) hi ch
  end.

(** Every point is reachable from exactly one leaf, and the root box is the
    box of the root. *)
Definition wf_tree (T : ANNkd_tree) : Prop :=
  wf_node (dim T) (pts T)
          (fun j => nth j (bnd_box_lo T) 0) (fun j => nth j (bnd_box_hi T) 0)
          (root T)
  /\ Permutation (all_idx (root T)) (map Z.of_nat (seq 0 (n_pts T)))
  /\ length (pts T) = (n_pts T * dim T)%nat.

(** Squared distance from the query to a box, over [n] axes. *)
Fixpoint fbox_dist (q : list Z) (lo hi : nat -> Z) (n : nat) : Z :=
  match n with
  | O => 0
  | S d => fbox_dist q lo hi d + box_axis (nth d q 0) (lo d) (hi d)
  end.

(** ** The queue of boxes and the invariant of the search *)

(** Order of the queue. *)
Definition prio_le (a b : PrQueue.entry) : Prop := fst a <= fst b.

(** The point indices below the nodes of a queue. *)
Definition queue_idx (l : list PrQueue.entry) : list Z :=
  flat_map (fun e => all_idx (snd e)) l.

(** A queue entry carries the exact distance from the query to the box of
    its node. *)
Definition entry_ok (q ps : list Z) (e : PrQueue.entry) : Prop :=
  exists lo hi,
    wf_node SCAN_WIDTH ps lo hi (snd e)
    /\ fst e = fbox_dist q lo hi SCAN_WIDTH.

(** The queue holds such entries in ascending order of priority. *)
Definition queue_ok (q ps : list Z) (l : list PrQueue.entry) : Prop :=
  Forall (entry_ok q ps) l /\ StronglySorted prio_le l.

(** The state of the loop: the candidate set holds the [K] smallest
    distances of the points scanned so far, and every other point of the
    tree is below a node of the queue. *)
Definition search_inv (q ps : list Z) (K : nat) (all : list Z)
           (st : ANNprTempStore) : Prop :=
  ANNprQ st = q /\ ANNprPts st = ps
  /\ ANNprMaxErr st = ANN_POW_dbl (1 + 0)
  /\ queue_ok q ps (PrQueue.entries (ANNprBoxPQ st))
  /\ exists seen,
       holds_smallest q ps K seen (ANNprPointMK st)
       /\ Permutation (seen ++ queue_idx (PrQueue.entries (ANNprBoxPQ st)))
                      all.

(** ** Concrete inputs *)

(** The origin. *)
Definition zeros (n : nat) : list Z := repeat 0 n.

(** Two points of 128 coordinates, (0,0,...) and (3,0,...), split at 1
    along axis 0. *)
Definition two_point_tree : ANNkd_tree :=
  mkTree 128 2 (zeros 128 ++ 3 :: zeros 127)
         (ANNkd_split 0 1 0 3 (ANNkd_leaf [0]) (ANNkd_leaf [1]))
         (zeros 128) (3 :: zeros 127).

(** One point of 256 coordinates, all 0 but coordinate 200, in one leaf. *)
Definition wide_tree : ANNkd_tree :=
  mkTree 256 1 (zeros 200 ++ 1 :: zeros 55) (ANNkd_leaf [0])
         (zeros 256) (repeat 1 256).

(** A store for a query over points of 256 coordinates. *)
Definition wide_store : ANNprTempStore :=
  mkStore 1 256 (zeros 256) (pts wide_tree) 0 (MinK.create 1)
          (PrQueue.create 1).


(** Two points of 128 coordinates, (-1,1,1,0,...) at squared distance 3
    from the origin and (1,0,...) at squared distance 1, split at 1 along
    axis 0: seen from the origin the first point is in the closer child, the
    box of the other child is at squared distance 1. *)
Definition rounding_tree : ANNkd_tree :=
  mkTree 128 2 (((-1) :: 1 :: 1 :: zeros 125) ++ 1 :: zeros 127)
         (ANNkd_split 0 1 (-1) 1 (ANNkd_leaf [0]) (ANNkd_leaf [1]))
         ((-1) :: zeros 127) (1 :: 1 :: 1 :: zeros 125).

(** A double just below sqrt 3 - 1: the real [(1+eps)^2] is above 3, the
    double [ANN_POW(1.0 + eps)] is below 3. *)
Definition rounding_eps : float := 0x1.76cf5d0b09955p-1%float.

(** Four points of 128 coordinates on axis 0, at 0, 2, 3 and 6, in three
    leaves: [0] below the cut at 1, [1; 2] between the cuts at 1 and 5, [3]
    above the cut at 5. *)
Definition three_leaf_tree : ANNkd_tree :=
  mkTree 128 4
         (zeros 128 ++ (2 :: zeros 127) ++ (3 :: zeros 127) ++ 6 :: zeros 127)
         (ANNkd_split 0 1 0 6 (ANNkd_leaf [0])
            (ANNkd_split 0 5 1 6 (ANNkd_leaf [1; 2]) (ANNkd_leaf [3])))
         (zeros 128) (6 :: zeros 127).


(** ** The candidate set during a leaf scan *)

(** Inserting every point of a bucket with its distance over the full scan
    width, without the chunked check. *)
Definition insert_all (q ps : list Z) (bkt : list Z) (s : MinK.t) : MinK.t :=
  fold_left (fun s' i => MinK.insert (scan_dist q ps i) i s') bkt s.

(** Order of the extended keys: +infinity is the largest. *)
Definition key_le (a b : PQKkey) : Prop :=
  match a, b with
  | Fin x, Fin y => x <= y
  | _, ANN_DIST_INF => True
  | ANN_DIST_INF, Fin _ => False
  end.

(** A candidate set of capacity [K] in order: at most [K] entries, in
    ascending order of distance. *)
Definition MinK_ok (K : nat) (s : MinK.t) : Prop :=
  MinK.k s = Z.of_nat K
  /\ StronglySorted Z.le (MinK.keys s)
  /\ (length (MinK.items s) <= K)%nat.

(** ** The stores of a search *)

(** The stores that the loop of a call goes through: the store set up
    before the loop, and the store after each dispatch. *)
Inductive reachable (T : ANNkd_tree) (B : Z) (q : list ANNcoord) (k : Z)
          (eps : Q) : ANNprTempStore -> Prop :=
| reach_init : reachable T B q k eps (init_store T q k eps)
| reach_step st np bd st' :
    reachable T B q k eps st ->
    pri_iter B st = Dispatched np bd st' ->
    reachable T B q k eps st'.

(** What holds of every such store, whatever the tree: the candidate set
    holds the [K] smallest distances of the points [seen] scanned so far,
    the counter of visited points is their number, and the points of the
    tree are those scanned and those below the nodes of the queue. *)
Definition visited_inv {F : Type} (q ps : list Z) (K : nat) (all : list Z)
           (st : ANNprTempStore_of F) : Prop :=
  ANNprQ st = q /\ ANNprPts st = ps
  /\ exists seen,
       holds_smallest q ps K seen (ANNprPointMK st)
       /\ Permutation (seen ++ queue_idx (PrQueue.entries (ANNprBoxPQ st)))
                      all
       /\ ANNptsVisited st = Z.of_nat (length seen).

(** A pair of the output arrays: a stored point of the tree with its
    distance, or the sentinel pair. *)
Definition output_pair (T : ANNkd_tree) (q : list ANNcoord)
           (i : ANNidx) (d : PQKkey) : Prop :=
  (i = ANN_NULL_IDX /\ d = ANN_DIST_INF)
  \/ (In i (all_idx (root T)) /\ d = Fin (scan_dist q (pts T) i)).


(** The points [base] are among those that the candidate set of the store
    has been offered. *)
Definition scanned_inv (q ps : list Z) (K : nat) (base : list Z)
           (st : ANNprTempStore) : Prop :=
  ANNprQ st = q /\ ANNprPts st = ps
  /\ exists seen,
       holds_smallest q ps K seen (ANNprPointMK st) /\ incl base seen.

(** * Properties *)

(** ** The handlers leave the query, the points and the error factor alone *)

Section Handlers.

Context {F : Type}.

Implicit Types st : ANNprTempStore_of F.

Lemma same_inputs_refl st : same_inputs st st.
Proof. repeat split. Qed.

Lemma same_inputs_trans st1 st2 st3 :
  same_inputs st1 st2 -> same_inputs st2 st3 -> same_inputs st1 st3.
Proof.
  unfold same_inputs; intros (a & b & c & d) (a' & b' & c' & d').
  repeat split; congruence.
Qed.

Lemma enqueue_far_inputs nd far st : same_inputs st (enqueue_far nd far st).
Proof. unfold enqueue_far; destruct (is_trivial far); repeat split. Qed.

Lemma enqueue_far_Q nd far st : ANNprQ (enqueue_far nd far st) = ANNprQ st.
Proof. apply enqueue_far_inputs. Qed.

Lemma enqueue_far_visited nd far st :
  ANNptsVisited (enqueue_far nd far st) = ANNptsVisited st.
Proof. unfold enqueue_far; destruct (is_trivial far); reflexivity. Qed.

Lemma enqueue_far_PointMK nd far st :
  ANNprPointMK (enqueue_far nd far st) = ANNprPointMK st.
Proof. unfold enqueue_far; destruct (is_trivial far); reflexivity. Qed.

Lemma leaf_search_inputs bkt bd st :
  same_inputs st (ANNkd_leaf_ann_pri_search bkt bd st).
Proof. repeat split. Qed.

Lemma leaf_search_BoxPQ bkt bd st :
  ANNprBoxPQ (ANNkd_leaf_ann_pri_search bkt bd st) = ANNprBoxPQ st.
Proof. reflexivity. Qed.

Lemma ann_pri_search_inputs np :
  forall bd st, same_inputs st (ann_pri_search np bd st).
Proof.
  induction np as [| bkt | cd cv lo hi cl IHl ch IHh]; intros bd st; simpl.
  - apply leaf_search_inputs.
  - apply leaf_search_inputs.
  - destruct (_ <? 0).
    + eapply same_inputs_trans; [apply enqueue_far_inputs | apply IHl].
    + eapply same_inputs_trans; [apply enqueue_far_inputs | apply IHh].
Qed.

(** ** The descent of one dispatch *)

Lemma enqueue_path_Q np : forall bd st, ANNprQ (enqueue_path np bd st) = ANNprQ st.
Proof.
  induction np as [| bkt | cd cv lo hi cl IHl ch IHh]; intros bd st; simpl;
    try reflexivity.
  destruct (_ <? 0); [rewrite IHl | rewrite IHh]; apply enqueue_far_Q.
Qed.

Lemma enqueue_path_visited np :
  forall bd st, ANNptsVisited (enqueue_path np bd st) = ANNptsVisited st.
Proof.
  induction np as [| bkt | cd cv lo hi cl IHl ch IHh]; intros bd st; simpl;
    try reflexivity.
  destruct (_ <? 0); [rewrite IHl | rewrite IHh]; apply enqueue_far_visited.
Qed.

Lemma enqueue_path_PointMK np :
  forall bd st, ANNprPointMK (enqueue_path np bd st) = ANNprPointMK st.
Proof.
  induction np as [| bkt | cd cv lo hi cl IHl ch IHh]; intros bd st; simpl;
    try reflexivity.
  destruct (_ <? 0); [rewrite IHl | rewrite IHh]; apply enqueue_far_PointMK.
Qed.

Lemma enqueue_path_inputs np :
  forall bd st, same_inputs st (enqueue_path np bd st).
Proof.
  induction np as [| bkt | cd cv lo hi cl IHl ch IHh]; intros bd st; simpl;
    try apply same_inputs_refl.
  destruct (_ <? 0);
    (eapply same_inputs_trans; [apply enqueue_far_inputs |]); auto.
Qed.

(** Leaves are handled by the leaf handler. *)
Lemma ann_pri_search_leaf np bd st :
  isLeaf np = true ->
  ann_pri_search np bd st = ANNkd_leaf_ann_pri_search (bucket np) bd st.
Proof. destruct np; simpl; [reflexivity | reflexivity | discriminate]. Qed.

(** A dispatch is: enqueue along the path, then scan the leaf at its end. *)
Lemma ann_pri_search_descent np :
  forall bd st,
    ann_pri_search np bd st =
    ANNkd_leaf_ann_pri_search (bucket (near_leaf (ANNprQ st) np)) bd
                              (enqueue_path np bd st).
Proof.
  induction np as [| bkt | cd cv lo hi cl IHl ch IHh]; intros bd st; simpl;
    try reflexivity.
  destruct (_ <? 0) eqn:E.
  - rewrite IHl, enqueue_far_Q. reflexivity.
  - rewrite IHh, enqueue_far_Q. reflexivity.
Qed.

(** A dispatch adds the bucket of the leaf it ends in to the count. *)
Lemma dispatch_counts_bucket np bd st :
  ANNptsVisited (ann_pri_search np bd st)
  = ANNptsVisited st
    + Z.of_nat (length (bucket (near_leaf (ANNprQ st) np))).
Proof.
  rewrite ann_pri_search_descent.
  cbn [ANNkd_leaf_ann_pri_search set_ptsVisited ANNptsVisited].
  rewrite enqueue_path_visited. reflexivity.
Qed.

(** ** What a dispatch puts into the queue *)

Lemma kd_size_pos np : (1 <= kd_size np)%nat.
Proof. destruct np; simpl; lia. Qed.

Lemma queue_weight_ins e l :
  queue_weight (PrQueue.ins e l) = (kd_size (snd e) + queue_weight l)%nat.
Proof.
  unfold queue_weight. induction l as [| x l IH]; simpl.
  - reflexivity.
  - destruct (fst e <? fst x); simpl; [reflexivity | rewrite IH; lia].
Qed.

Lemma enqueue_far_weight nd far st :
  (store_weight (enqueue_far nd far st) <= store_weight st + kd_size far)%nat.
Proof.
  unfold enqueue_far, store_weight.
  destruct far; simpl; rewrite ?queue_weight_ins; simpl; lia.
Qed.

(** A dispatch puts strictly less into the queue than the node it took. *)
Lemma ann_pri_search_weight np :
  forall bd st,
    (store_weight (ann_pri_search np bd st) < store_weight st + kd_size np)%nat.
Proof.
  induction np as [| bkt | cd cv lo hi cl IHl ch IHh]; intros bd st.
  - simpl. unfold store_weight. simpl. lia.
  - simpl. unfold store_weight. simpl. lia.
  - cbn [ann_pri_search kd_size].
    destruct (_ <? 0).
    + match goal with |- context [enqueue_far ?n ?f st] =>
        specialize (IHl bd (enqueue_far n f st));
        pose proof (enqueue_far_weight n f st) as W end.
      lia.
    + match goal with |- context [enqueue_far ?n ?f st] =>
        specialize (IHh bd (enqueue_far n f st));
        pose proof (enqueue_far_weight n f st) as W end.
      lia.
Qed.

Lemma max_bucket_nonneg np : 0 <= max_bucket np.
Proof. induction np; simpl; lia. Qed.

Lemma Forall_PrQueue_ins (P : PrQueue.entry -> Prop) e l :
  P e -> Forall P l -> Forall P (PrQueue.ins e l).
Proof.
  intros He Hl. induction Hl as [| x l Hx Hl IH]; simpl.
  - auto.
  - destruct (fst e <? fst x); auto.
Qed.

Lemma enqueue_far_buckets M nd far st :
  max_bucket far <= M -> buckets_within M st ->
  buckets_within M (enqueue_far nd far st).
Proof.
  intros Hf Hst. unfold enqueue_far.
  destruct (is_trivial far); [exact Hst |].
  unfold buckets_within. simpl. apply Forall_PrQueue_ins; auto.
Qed.

Lemma enqueue_path_buckets M np :
  forall bd st,
    max_bucket np <= M -> buckets_within M st ->
    buckets_within M (enqueue_path np bd st).
Proof.
  induction np as [| bkt | cd cv lo hi cl IHl ch IHh]; intros bd st Hn Hst;
    simpl in *; auto.
  destruct (_ <? 0).
  - apply IHl; [lia |]. apply enqueue_far_buckets; [lia | exact Hst].
  - apply IHh; [lia |]. apply enqueue_far_buckets; [lia | exact Hst].
Qed.

Lemma near_leaf_bucket q np :
  Z.of_nat (length (bucket (near_leaf q np))) <= max_bucket np.
Proof.
  induction np as [| bkt | cd cv lo hi cl IHl ch IHh]; simpl; try lia.
  destruct (_ <? 0); lia.
Qed.

(** One dispatch scans one bucket. *)
Lemma ann_pri_search_visited M np bd st :
  max_bucket np <= M -> buckets_within M st ->
  buckets_within M (ann_pri_search np bd st)
  /\ ANNptsVisited st <= ANNptsVisited (ann_pri_search np bd st)
     <= ANNptsVisited st + M.
Proof.
  intros Hn Hst. rewrite ann_pri_search_descent. split.
  - unfold buckets_within. rewrite leaf_search_BoxPQ.
    apply enqueue_path_buckets; assumption.
  - cbn [ANNkd_leaf_ann_pri_search set_ptsVisited ANNptsVisited].
    rewrite enqueue_path_visited.
    pose proof (near_leaf_bucket (ANNprQ st) np). lia.
Qed.

End Handlers.

(** ** The two handlers *)

(** C9.  Processing a leaf (the trivial leaf included) adds exactly the
    bucket size [n_pts] to the count of visited points, whatever the store,
    hence whatever number of points the chunked check abandons. *)
Theorem leaf_counts_whole_bucket :
  forall (bkt : list ANNidx) (box_dist : ANNdist) (st : ANNprTempStore),
    ANNptsVisited (ann_pri_search (ANNkd_leaf bkt) box_dist st)
    = ANNptsVisited st + Z.of_nat (length bkt)
    /\ ANNptsVisited (ann_pri_search KD_TRIVIAL box_dist st)
       = ANNptsVisited st.
Proof.
  intros bkt bd st; split; simpl.
  - reflexivity.
  - lia.
Qed.


(** ** The incremental update of the box distance *)

Lemma clamp0_max x : clamp0 x = Z.max 0 x.
Proof. unfold clamp0. destruct (Z.ltb_spec x 0); lia. Qed.

Lemma new_dist_eq bd b c : new_dist bd b c = bd - b * b + c * c.
Proof. unfold new_dist, ANN_SUM, ANN_DIFF, ANN_POW. lia. Qed.

Section DiffReading.

(** Any reading [diff] of the macro [ANN_DIFF] under which the value that the
    split handler computes is the squared distance from the query to the
    farther child's box (here on one axis, the box [lo, hi] cut at [cv], the
    query at [x < cv]) subtracts the old contribution from the new one. *)
Variable diff : ANNdist -> ANNdist -> ANNdist.

Hypothesis diff_gives_box_distance :
  forall x lo hi cv : ANNcoord,
    lo <= cv <= hi -> x < cv ->
    ANN_SUM (box_axis x lo hi)
            (diff (ANN_POW (clamp0 (lo - x))) (ANN_POW (x - cv)))
    = box_axis x cv hi.

Lemma ANN_DIFF_forced :
  forall b c : ANNdist, 0 <= b < c ->
    diff (ANN_POW b) (ANN_POW c) = ANN_POW c - ANN_POW b.
Proof.
  intros b c Hbc.
  assert (H := diff_gives_box_distance (- c) (b - c) 0 0
                 ltac:(lia) ltac:(lia)).
  unfold box_axis, ANN_SUM in H.
  replace (b - c - - c) with b in H by lia.
  replace (- c - 0) with (- c) in H by lia.
  replace (0 - - c) with c in H by lia.
  rewrite clamp0_max in H. replace (Z.max 0 b) with b in H by lia.
  replace (ANN_POW (- c)) with (ANN_POW c) in H by (unfold ANN_POW; lia).
  assert (E : (- c <? 0) = true) by (apply Z.ltb_lt; lia).
  rewrite E in H.
  destruct (Z.ltb_spec (- c) (b - c)) as [Hlt | Hge].
  - clear - H. lia.
  - assert (b = 0) by (clear - Hbc Hge; lia). subst b.
    destruct (Z.ltb_spec 0 (- c)) as [Hlt | _].
    + clear - Hbc Hlt. lia.
    + clear - H. unfold ANN_POW in *. lia.
Qed.

End DiffReading.

(** [ANN_DIFF] as defined above meets the hypothesis of [ANN_DIFF_forced]. *)
Lemma ANN_DIFF_gives_box_distance :
  forall x lo hi cv : ANNcoord,
    lo <= cv <= hi -> x < cv ->
    ANN_SUM (box_axis x lo hi)
            (ANN_DIFF (ANN_POW (clamp0 (lo - x))) (ANN_POW (x - cv)))
    = box_axis x cv hi.
Proof.
  intros x lo hi cv H1 H2.
  unfold box_axis, ANN_SUM, ANN_DIFF, ANN_POW. rewrite clamp0_max.
  destruct (Z.max_spec 0 (lo - x)) as [[Hm ->] | [Hm ->]];
    destruct (Z.ltb_spec x lo); destruct (Z.ltb_spec x cv);
    destruct (Z.ltb_spec hi x); lia.
Qed.

(** C3 as stated fails: the query at 0 on the cut axis, the cut at 3, the
    node's lower bound at 0 and an incoming box distance 0 give
    [cutDiff = -3] and [boxDiff = 0]; the priority enqueued for the high
    child is 9, while [boxDist - cutDiff^2 + boxDiff^2] is -9. *)
Lemma far_priority_counterexample :
  let st := mkStore 1 1 [0] [] 0 (MinK.create 1) (PrQueue.create 1) in
  let box_dist := 0 in
  let cut_diff := nth 0%nat (ANNprQ st) 0 - 3 in
  let box_diff := Z.max 0 (0 - nth 0%nat (ANNprQ st) 0) in
  let enqueued :=
    PrQueue.entries
      (ANNprBoxPQ
         (ann_pri_search (ANNkd_split 0 3 0 5 KD_TRIVIAL (ANNkd_leaf [0]))
                         box_dist st)) in
  cut_diff < 0
  /\ enqueued = [(9, ANNkd_leaf [0])]
  /\ box_dist - cut_diff * cut_diff + box_diff * box_diff = -9
  /\ enqueued
     <> [(box_dist - cut_diff * cut_diff + box_diff * box_diff,
          ANNkd_leaf [0])].
Proof.
  cbv zeta. split; [reflexivity |]. split; [reflexivity |].
  split; [reflexivity |]. vm_compute. discriminate.
Qed.

(** C3 (amended).  With [cutDiff = q[cutAxis] - cutValue], the farther child
    is enqueued with priority [boxDist - boxDiff^2 + cutDiff^2]: the old
    contribution of the cut axis is taken out and the new one put in.  Here
    [boxDiff = max(0, nodeLowBound - q[cutAxis])] when [cutDiff < 0] (the
    farther child is the high one) and
    [boxDiff = max(0, q[cutAxis] - nodeHighBound)] otherwise (the farther
    child is the low one). *)
Theorem far_priority_incremental :
  forall cd cv lo hi cl ch (box_dist : ANNdist) (st : ANNprTempStore),
    let x := nth cd (ANNprQ st) 0 in
    let cut_diff := x - cv in
    let near := if cut_diff <? 0 then cl else ch in
    let far := if cut_diff <? 0 then ch else cl in
    let box_diff := if cut_diff <? 0 then Z.max 0 (lo - x)
                    else Z.max 0 (x - hi) in
    ann_pri_search (ANNkd_split cd cv lo hi cl ch) box_dist st
    = ann_pri_search near box_dist
        (set_BoxPQ
           (if is_trivial far then ANNprBoxPQ st
            else PrQueue.insert
                   (box_dist - box_diff * box_diff + cut_diff * cut_diff)
                   far (ANNprBoxPQ st)) st).
Proof.
  intros cd cv lo hi cl ch bd st x cut_diff near far box_diff.
  subst near far box_diff cut_diff. simpl. fold x.
  assert (Hid : set_BoxPQ (ANNprBoxPQ st) st = st) by (destruct st; reflexivity).
  destruct (x - cv <? 0); unfold enqueue_far;
    match goal with |- context [is_trivial ?c] => destruct (is_trivial c) end;
    rewrite ?Hid, ?new_dist_eq, ?clamp0_max; reflexivity.
Qed.

(** ** The loop, whatever evaluates its termination test *)

Lemma over_budget_iff {F : Type} B (st : ANNprTempStore_of F) :
  over_budget B st = true <-> B <> 0 /\ B < ANNptsVisited st.
Proof.
  unfold over_budget. rewrite andb_true_iff, negb_true_iff, Z.eqb_neq, Z.ltb_lt.
  tauto.
Qed.

Section LoopWith.

Context {F : Type} (stop : ANNdist -> ANNprTempStore_of F -> bool).

Implicit Types st : ANNprTempStore_of F.

Lemma pri_iter_with_cases B (st : ANNprTempStore_of F) :
  match pri_iter_with stop B st with
  | Leave QueueEmpty st' =>
      st' = st /\ PrQueue.entries (ANNprBoxPQ st) = []
  | Leave BudgetExceeded st' =>
      st' = st /\ PrQueue.entries (ANNprBoxPQ st) <> [] /\
      over_budget B st = true
  | Leave BoundReached st' =>
      exists bd np rest,
        PrQueue.extr_min (ANNprBoxPQ st) = Some ((bd, np), rest) /\
        over_budget B st = false /\
        st' = set_BoxPQ rest st /\ stop bd st' = true
  | Leave FuelOut _ => False
  | Dispatched np bd st' =>
      exists rest,
        PrQueue.extr_min (ANNprBoxPQ st) = Some ((bd, np), rest) /\
        over_budget B st = false /\
        stop bd (set_BoxPQ rest st) = false /\
        st' = ann_pri_search np bd (set_BoxPQ rest st)
  end.
Proof.
  unfold pri_iter_with, PrQueue.extr_min.
  destruct (PrQueue.entries (ANNprBoxPQ st)) as [| [bd np] rest] eqn:E.
  - auto.
  - destruct (over_budget B st) eqn:Eb.
    + repeat split. discriminate.
    + destruct (stop bd _) eqn:Er.
      * exists bd, np, (PrQueue.mk (PrQueue.max_size (ANNprBoxPQ st)) rest).
        auto.
      * exists (PrQueue.mk (PrQueue.max_size (ANNprBoxPQ st)) rest). auto.
Qed.

(** An iteration that the budget does not stop: the box is extracted, and
    the loop ends there on the termination test or goes on from the store
    that the handler leaves. *)
Lemma pri_loop_with_step fuel B (st : ANNprTempStore_of F) bd np rest :
  PrQueue.extr_min (ANNprBoxPQ st) = Some ((bd, np), rest) ->
  over_budget B st = false ->
  pri_loop_with stop (S fuel) B st
  = if stop bd (set_BoxPQ rest st) then (BoundReached, set_BoxPQ rest st)
    else pri_loop_with stop fuel B
           (ann_pri_search np bd (set_BoxPQ rest st)).
Proof.
  intros Hex Hb. cbn [pri_loop_with]. unfold pri_iter_with.
  rewrite Hex, Hb. destruct (stop bd (set_BoxPQ rest st)); reflexivity.
Qed.

Lemma pri_iter_with_weight B (st : ANNprTempStore_of F) np bd st' :
  pri_iter_with stop B st = Dispatched np bd st' ->
  (store_weight st' < store_weight st)%nat.
Proof.
  intros H. pose proof (pri_iter_with_cases B st) as C. rewrite H in C.
  destruct C as (rest & Hex & _ & _ & ->).
  unfold PrQueue.extr_min in Hex.
  destruct (PrQueue.entries (ANNprBoxPQ st)) as [| e l] eqn:E; [discriminate |].
  inversion Hex; subst.
  pose proof (ann_pri_search_weight np bd
    (set_BoxPQ (PrQueue.mk (PrQueue.max_size (ANNprBoxPQ st)) l) st)) as W.
  unfold store_weight in *. rewrite E. simpl in *.
  unfold queue_weight in *. simpl. lia.
Qed.

(** With more fuel than the weight of the queue the loop is left through
    one of its own exits. *)
Lemma pri_loop_with_fuel :
  forall fuel B (st : ANNprTempStore_of F),
    (store_weight st < fuel)%nat ->
    fst (pri_loop_with stop fuel B st) <> FuelOut.
Proof.
  induction fuel as [| fuel IH]; intros B st Hw; [lia |].
  simpl. pose proof (pri_iter_with_cases B st) as C.
  destruct (pri_iter_with stop B st) as [why st' | np bd st'] eqn:E.
  - destruct why; simpl; try discriminate. contradiction.
  - apply IH. apply pri_iter_with_weight in E. lia.
Qed.

(** Beyond that amount the fuel has no influence on the result. *)
Lemma pri_loop_with_fuel_irrelevant :
  forall fuel fuel' B st,
    (store_weight st < fuel)%nat -> (store_weight st < fuel')%nat ->
    pri_loop_with stop fuel B st = pri_loop_with stop fuel' B st.
Proof.
  induction fuel as [| fuel IH]; intros fuel' B st Hw Hw'; [lia |].
  destruct fuel' as [| fuel']; [lia |].
  simpl. destruct (pri_iter_with stop B st) as [why st' | np bd st'] eqn:E.
  - reflexivity.
  - apply pri_iter_with_weight in E. apply IH; lia.
Qed.

Lemma init_store_with_weight (maxErr : F) T q k :
  store_weight (init_store_with maxErr T q k) = kd_size (root T).
Proof. unfold store_weight, queue_weight. simpl. lia. Qed.

Lemma pri_search_run_with_exits (maxErr : F) T B q k :
  fst (pri_search_run_with stop maxErr T B q k) <> FuelOut.
Proof.
  unfold pri_search_run_with. apply pri_loop_with_fuel.
  rewrite init_store_with_weight. lia.
Qed.

(** The loop is left on budget grounds only with a nonzero budget, a count
    strictly above it and a box still in the queue. *)
Lemma pri_loop_with_budget_exit :
  forall fuel B (st : ANNprTempStore_of F),
    fst (pri_loop_with stop fuel B st) = BudgetExceeded ->
    B <> 0 /\ B < ANNptsVisited (snd (pri_loop_with stop fuel B st))
    /\ PrQueue.non_empty (ANNprBoxPQ (snd (pri_loop_with stop fuel B st)))
       = true.
Proof.
  induction fuel as [| fuel IH]; intros B st; cbn [pri_loop_with];
    [discriminate |].
  pose proof (pri_iter_with_cases B st) as C.
  destruct (pri_iter_with stop B st) as [why st' | np bd st'].
  - cbn [fst snd]. intros ->. destruct C as (-> & Hne & Hb).
    apply over_budget_iff in Hb. split; [tauto |]. split; [tauto |].
    unfold PrQueue.non_empty.
    destruct (PrQueue.entries (ANNprBoxPQ st)); [contradiction | reflexivity].
  - apply IH.
Qed.

(** With a count above a nonzero budget and a box in the queue the loop is
    left at once. *)
Lemma pri_loop_with_over_budget fuel B (st : ANNprTempStore_of F) :
  PrQueue.non_empty (ANNprBoxPQ st) = true ->
  B <> 0 -> B < ANNptsVisited st ->
  pri_loop_with stop (S fuel) B st = (BudgetExceeded, st).
Proof.
  intros Hne H0 Hv. cbn [pri_loop_with].
  unfold pri_iter_with, PrQueue.extr_min. unfold PrQueue.non_empty in Hne.
  destruct (PrQueue.entries (ANNprBoxPQ st)) as [| [bd np] l];
    [discriminate |].
  assert (Eb : over_budget B st = true) by (apply over_budget_iff; auto).
  rewrite Eb. reflexivity.
Qed.

Lemma pri_loop_with_overshoot M :
  forall fuel B (st : ANNprTempStore_of F),
    0 < B -> buckets_within M st -> ANNptsVisited st <= B + M ->
    ANNptsVisited (snd (pri_loop_with stop fuel B st)) <= B + M.
Proof.
  induction fuel as [| fuel IH]; intros B st HB Hq Hv; simpl; [exact Hv |].
  pose proof (pri_iter_with_cases B st) as C.
  destruct (pri_iter_with stop B st) as [why st' | np bd st'].
  - simpl. destruct why.
    + destruct C as [-> _]. exact Hv.
    + destruct C as [-> _]. exact Hv.
    + destruct C as (bd & np & rest & _ & _ & -> & _). exact Hv.
    + contradiction.
  - destruct C as (rest & Hex & Hb & _ & ->).
    unfold PrQueue.extr_min in Hex.
    destruct (PrQueue.entries (ANNprBoxPQ st)) as [| e l] eqn:E;
      [discriminate |].
    inversion Hex; subst. clear Hex.
    unfold buckets_within in Hq. rewrite E in Hq. inversion Hq; subst.
    assert (Hnb : ~ (B <> 0 /\ B < ANNptsVisited st))
      by (rewrite <- over_budget_iff, Hb; discriminate).
    match goal with |- context [ann_pri_search np bd ?s] =>
      destruct (ann_pri_search_visited M np bd s) as [Hq' Hv'] end.
    + assumption.
    + assumption.
    + apply IH; [assumption | assumption |].
      cbn [set_BoxPQ ANNptsVisited] in Hv'. lia.
Qed.

End LoopWith.

Implicit Types st : ANNprTempStore.

(** ** The loop in exact arithmetic *)

(** [annkPriSearch] is the function above with the test and the error
    factor of exact arithmetic. *)
Lemma pri_loop_exact_with fuel B st :
  pri_loop fuel B st = pri_loop_with bound_reached fuel B st.
Proof. reflexivity. Qed.

Lemma annkPriSearch_exact_with T B q k eps :
  pri_search_run T B q k eps
  = pri_search_run_with bound_reached (ANN_POW_dbl (1 + eps)) T B q k
  /\ annkPriSearch T B q k eps
     = annkPriSearch_with bound_reached (ANN_POW_dbl (1 + eps)) T B q k.
Proof. split; reflexivity. Qed.

Lemma bound_reached_iff bd st :
  bound_reached bd st = true <->
  reaches (inject_Z bd * ANNprMaxErr st) (MinK.max_key (ANNprPointMK st)).
Proof.
  unfold bound_reached, reaches.
  destruct (MinK.max_key (ANNprPointMK st)).
  - apply Qle_bool_iff.
  - split; [discriminate | tauto].
Qed.

Lemma pri_iter_cases B st :
  match pri_iter B st with
  | Leave QueueEmpty st' =>
      st' = st /\ PrQueue.entries (ANNprBoxPQ st) = []
  | Leave BudgetExceeded st' =>
      st' = st /\ PrQueue.entries (ANNprBoxPQ st) <> [] /\
      over_budget B st = true
  | Leave BoundReached st' =>
      exists bd np rest,
        PrQueue.extr_min (ANNprBoxPQ st) = Some ((bd, np), rest) /\
        over_budget B st = false /\
        st' = set_BoxPQ rest st /\ bound_reached bd st' = true
  | Leave FuelOut _ => False
  | Dispatched np bd st' =>
      exists rest,
        PrQueue.extr_min (ANNprBoxPQ st) = Some ((bd, np), rest) /\
        over_budget B st = false /\
        bound_reached bd (set_BoxPQ rest st) = false /\
        st' = ann_pri_search np bd (set_BoxPQ rest st)
  end.
Proof. exact (pri_iter_with_cases bound_reached B st). Qed.

Lemma pri_iter_weight B st np bd st' :
  pri_iter B st = Dispatched np bd st' ->
  (store_weight st' < store_weight st)%nat.
Proof. exact (pri_iter_with_weight bound_reached B st np bd st'). Qed.

(** With more fuel than the weight of the queue the loop is left through
    one of its own exits. *)
Lemma pri_loop_fuel :
  forall fuel B st,
    (store_weight st < fuel)%nat -> fst (pri_loop fuel B st) <> FuelOut.
Proof. exact (pri_loop_with_fuel bound_reached). Qed.

Lemma init_store_weight T q k eps :
  store_weight (init_store T q k eps) = kd_size (root T).
Proof. unfold store_weight, queue_weight. simpl. lia. Qed.

Lemma pri_search_run_exits T B q k eps :
  fst (pri_search_run T B q k eps) <> FuelOut.
Proof.
  unfold pri_search_run. apply pri_loop_fuel.
  rewrite init_store_weight. lia.
Qed.

Lemma extract_dd_length k pmk : length (extract_dd k pmk) = Z.to_nat k.
Proof. unfold extract_dd. rewrite length_map, length_seq. reflexivity. Qed.

Lemma extract_nn_idx_length k pmk :
  length (extract_nn_idx k pmk) = Z.to_nat k.
Proof. unfold extract_nn_idx. rewrite length_map, length_seq. reflexivity. Qed.

(** ** The termination test in binary64 arithmetic *)



(** ** The visited-point budget *)

(** C10.  With a nonzero budget, and whatever evaluates the termination
    test: while the count of visited points is at most the budget and the
    queue holds a box, the loop makes another iteration (the box is
    extracted and, unless the termination test ends the loop there,
    dispatched, which adds the whole bucket of the leaf reached to the
    count); with a count strictly above the budget and a box in the queue
    the loop is left on budget grounds, and it is left on these grounds in
    no other case.  So a search with a positive budget ends with a count of
    at most the budget plus the largest bucket of the tree, and this bound
    is attained: in [three_leaf_tree], searched from the origin with k = 5,
    [eps = 0] and a budget of 1, the search ends on budget grounds with a
    count of 3, the budget plus the bucket of two points scanned last. *)
Theorem budget_strict_and_overshoot :
  forall (F : Type) (stop : ANNdist -> ANNprTempStore_of F -> bool)
         (maxErr : F) (T : ANNkd_tree) (B : Z) (q : list ANNcoord) (k : Z),
    B <> 0 ->
    (forall (st : ANNprTempStore_of F) (fuel : nat) (bd : ANNdist)
            (np : ANNkd_node) (rest : PrQueue.t),
        PrQueue.extr_min (ANNprBoxPQ st) = Some ((bd, np), rest) ->
        ANNptsVisited st <= B ->
        pri_loop_with stop (S fuel) B st
        = (if stop bd (set_BoxPQ rest st)
           then (BoundReached, set_BoxPQ rest st)
           else pri_loop_with stop fuel B
                  (ann_pri_search np bd (set_BoxPQ rest st)))
        /\ ANNptsVisited (ann_pri_search np bd (set_BoxPQ rest st))
           = ANNptsVisited st
             + Z.of_nat (length (bucket (near_leaf (ANNprQ st) np))))
    /\ (forall (st : ANNprTempStore_of F) (fuel : nat),
           PrQueue.non_empty (ANNprBoxPQ st) = true ->
           B < ANNptsVisited st ->
           pri_loop_with stop (S fuel) B st = (BudgetExceeded, st))
    /\ (forall (st : ANNprTempStore_of F) (fuel : nat),
           fst (pri_loop_with stop fuel B st) = BudgetExceeded ->
           B < ANNptsVisited (snd (pri_loop_with stop fuel B st))
           /\ PrQueue.non_empty
                (ANNprBoxPQ (snd (pri_loop_with stop fuel B st))) = true)
    /\ (0 < B ->
        ANNptsVisited (snd (pri_search_run_with stop maxErr T B q k))
        <= B + max_bucket (root T))
    /\ (fst (pri_search_run_ieee infinity three_leaf_tree 1 (zeros 128) 5 0)
        = BudgetExceeded
        /\ ANNptsVisited
             (snd (pri_search_run_ieee infinity three_leaf_tree 1
                                       (zeros 128) 5 0))
           = 1 + max_bucket (root three_leaf_tree)).
Proof.
  intros F stop maxErr T B q k HB.
  split; [| split; [| split; [| split]]].
  - intros st fuel bd np rest Hex Hv. split.
    + apply pri_loop_with_step; [exact Hex |].
      destruct (over_budget B st) eqn:Eb; [| reflexivity].
      apply over_budget_iff in Eb. lia.
    + apply (dispatch_counts_bucket np bd (set_BoxPQ rest st)).
  - intros st fuel Hne Hv. apply pri_loop_with_over_budget; assumption.
  - intros st fuel H.
    destruct (pri_loop_with_budget_exit stop fuel B st H) as (_ & H1 & H2).
    split; assumption.
  - intros Hpos. unfold pri_search_run_with. apply pri_loop_with_overshoot.
    + exact Hpos.
    + unfold buckets_within. simpl. constructor; [simpl; lia | constructor].
    + simpl. pose proof (max_bucket_nonneg (root T)). lia.
  - split; vm_compute; reflexivity.
Qed.

(** ** Sorting by insertion *)

Lemma insZ_length x l : length (insZ x l) = S (length l).
Proof.
  induction l as [| y l IH]; simpl; [reflexivity |].
  destruct (x <? y); simpl; [reflexivity | rewrite IH; reflexivity].
Qed.

Lemma insZ_perm x l : Permutation (x :: l) (insZ x l).
Proof.
  induction l as [| y l IH]; simpl; [apply Permutation_refl |].
  destruct (x <? y); [apply Permutation_refl |].
  eapply perm_trans; [apply perm_swap | apply perm_skip, IH].
Qed.

Lemma insZ_sorted x l :
  StronglySorted Z.le l -> StronglySorted Z.le (insZ x l).
Proof.
  induction 1 as [| y l Hs IH Hy]; simpl.
  - repeat constructor.
  - destruct (Z.ltb_spec x y).
    + constructor; [constructor; assumption |].
      constructor; [lia |].
      eapply Forall_impl; [| exact Hy]. simpl. intros; lia.
    + constructor; [exact IH |].
      eapply Permutation_Forall; [apply insZ_perm |].
      constructor; [lia | exact Hy].
Qed.

Lemma sortZ_sorted l : StronglySorted Z.le (sortZ l).
Proof.
  induction l; simpl; [constructor | apply insZ_sorted; assumption].
Qed.

Lemma sortZ_perm_self l : Permutation l (sortZ l).
Proof.
  induction l as [| x l IH]; simpl; [constructor |].
  eapply perm_trans; [apply perm_skip, IH | apply insZ_perm].
Qed.

Lemma sortZ_length l : length (sortZ l) = length l.
Proof. symmetry. apply Permutation_length, sortZ_perm_self. Qed.

Lemma insZ_comm a b l : insZ a (insZ b l) = insZ b (insZ a l).
Proof.
  induction l as [| c l IH]; simpl.
  - destruct (Z.ltb_spec a b); destruct (Z.ltb_spec b a); try lia;
      try reflexivity.
    assert (a = b) by lia. subst. reflexivity.
  - destruct (Z.ltb_spec a c); destruct (Z.ltb_spec b c); simpl;
      destruct (Z.ltb_spec a b); destruct (Z.ltb_spec b a);
      destruct (Z.ltb_spec a c); destruct (Z.ltb_spec b c);
      try lia; try reflexivity.
    + assert (a = b) by lia. subst. reflexivity.
    + rewrite IH. reflexivity.
    + rewrite IH. reflexivity.
    + rewrite IH. reflexivity.
Qed.

(** The sorted list depends on the multiset of its elements only. *)
Lemma sortZ_perm l l' : Permutation l l' -> sortZ l = sortZ l'.
Proof.
  induction 1; simpl.
  - reflexivity.
  - f_equal. assumption.
  - apply insZ_comm.
  - congruence.
Qed.

Lemma sortZ_app l1 l2 : sortZ (l1 ++ l2) = fold_right insZ (sortZ l2) l1.
Proof. unfold sortZ. apply fold_right_app. Qed.

Lemma firstn_cons_firstn (n : nat) (y : Z) (l : list Z) :
  firstn n (y :: firstn n l) = firstn n (y :: l).
Proof.
  destruct n as [| n]; [reflexivity |].
  rewrite !firstn_cons. f_equal. rewrite firstn_firstn. f_equal. lia.
Qed.

Lemma firstn_insZ_firstn n :
  forall x l, firstn n (insZ x (firstn n l)) = firstn n (insZ x l).
Proof.
  induction n as [| n IH]; intros x l; [reflexivity |].
  destruct l as [| y l]; [reflexivity |].
  rewrite firstn_cons. cbn [insZ]. destruct (x <? y).
  - rewrite !firstn_cons. f_equal. apply firstn_cons_firstn.
  - rewrite !firstn_cons. f_equal. apply IH.
Qed.

(** An element that is not below any of the first [n] does not change
    them. *)
Lemma firstn_insZ_ge n :
  forall x l,
    (n <= length l)%nat -> Forall (fun y => y <= x) (firstn n l) ->
    firstn n (insZ x l) = firstn n l.
Proof.
  induction n as [| n IH]; intros x l Hn Hall; [reflexivity |].
  destruct l as [| y l]; [simpl in Hn; lia |].
  simpl in *. inversion Hall; subst.
  destruct (Z.ltb_spec x y); [lia |].
  simpl. rewrite IH; [reflexivity | lia | assumption].
Qed.

Lemma firstn_fold_insZ_ge n S0 :
  forall B,
    (n <= length S0)%nat ->
    Forall (fun x => Forall (fun y => y <= x) (firstn n S0)) B ->
    firstn n (fold_right insZ S0 B) = firstn n S0.
Proof.
  induction B as [| b B IH]; intros Hn Hall; [reflexivity |].
  inversion Hall; subst. simpl.
  assert (Hlen : (n <= length (fold_right insZ S0 B))%nat).
  { clear - Hn. induction B; simpl; [exact Hn | rewrite insZ_length; lia]. }
  rewrite firstn_insZ_ge; [apply IH; assumption | exact Hlen |].
  rewrite IH; assumption.
Qed.

Lemma insZ_snoc_lt x d l :
  x < d -> insZ x (l ++ [d]) = insZ x l ++ [d].
Proof.
  intros H. induction l as [| y l IH]; simpl.
  - destruct (Z.ltb_spec x d); [reflexivity | lia].
  - destruct (x <? y); [reflexivity | rewrite IH; reflexivity].
Qed.

Lemma StronglySorted_firstn n :
  forall l, StronglySorted Z.le l -> StronglySorted Z.le (firstn n l).
Proof.
  induction n as [| n IH]; intros l H; [constructor |].
  destruct l as [| y l]; [constructor |].
  inversion H; subst. simpl. constructor; [apply IH; assumption |].
  clear - H3. revert n. induction H3; intros [| n]; simpl; constructor; auto.
Qed.

Lemma StronglySorted_snoc_le l d :
  StronglySorted Z.le (l ++ [d]) -> Forall (fun y => y <= d) (l ++ [d]).
Proof.
  induction l as [| y l IH]; simpl; intros H.
  - constructor; [lia | constructor].
  - inversion H; subst. constructor; [| apply IH; assumption].
    rewrite Forall_forall in H3. apply H3. apply in_or_app. right. left.
    reflexivity.
Qed.

(** ** The bounded set of candidates *)

Lemma MinK_keys_ins e l :
  map fst (MinK.ins e l) = insZ (fst e) (map fst l).
Proof.
  induction l as [| x l IH]; simpl; [reflexivity |].
  destruct (fst e <? fst x); simpl; [reflexivity | rewrite IH; reflexivity].
Qed.

Lemma MinK_ins_Forall (P : Z * Z -> Prop) e l :
  P e -> Forall P l -> Forall P (MinK.ins e l).
Proof.
  intros He Hl. induction Hl as [| x l Hx Hl IH]; simpl.
  - auto.
  - destruct (fst e <? fst x); auto.
Qed.

Lemma MinK_worst_inv l :
  match MinK.worst l with
  | Some d => exists r i, l = r ++ [(d, i)] /\ removelast l = r
  | None => l = []
  end.
Proof.
  unfold MinK.worst. destruct (rev l) as [| [d i] r] eqn:E.
  - apply (f_equal (@rev _)) in E. rewrite rev_involutive in E. exact E.
  - apply (f_equal (@rev _)) in E. rewrite rev_involutive in E. simpl in E.
    exists (rev r), i. subst l. split; [reflexivity |].
    apply removelast_last.
Qed.

(** On the keys, an insertion is a sorted insertion cut after [k]
    entries. *)
Lemma MinK_insert_keys (K : nat) kv inf s :
  MinK.k s = Z.of_nat K ->
  StronglySorted Z.le (MinK.keys s) ->
  (length (MinK.items s) <= K)%nat ->
  MinK.k (MinK.insert kv inf s) = MinK.k s
  /\ MinK.keys (MinK.insert kv inf s) = firstn K (insZ kv (MinK.keys s)).
Proof.
  intros Hk Hs Hl. unfold MinK.insert, MinK.keys in *.
  destruct (Z.ltb_spec (Z.of_nat (length (MinK.items s))) (MinK.k s)) as [H | H].
  - simpl. split; [reflexivity |].
    rewrite MinK_keys_ins. simpl. rewrite firstn_all2; [reflexivity |].
    rewrite insZ_length, length_map. lia.
  - assert (Hlen : length (MinK.items s) = K) by lia.
    pose proof (MinK_worst_inv (MinK.items s)) as W.
    destruct (MinK.worst (MinK.items s)) as [d |].
    + destruct W as (r & i & E & Er).
      destruct (Z.ltb_spec kv d) as [Hlt | Hge].
      * simpl. split; [reflexivity |].
        rewrite MinK_keys_ins, Er, E, map_app. simpl.
        rewrite insZ_snoc_lt by assumption.
        rewrite firstn_app.
        assert (Hr : length (insZ kv (map fst r)) = K).
        { rewrite insZ_length, length_map. rewrite E, length_app in Hlen.
          simpl in Hlen. lia. }
        rewrite firstn_all2 by lia. rewrite Hr, Nat.sub_diag. simpl.
        symmetry. apply app_nil_r.
      * split; [reflexivity |].
        rewrite firstn_insZ_ge.
        -- rewrite firstn_all2; [reflexivity | rewrite length_map; lia].
        -- rewrite length_map. lia.
        -- rewrite firstn_all2 by (rewrite length_map; lia).
           rewrite E, map_app in *. simpl in *.
           apply StronglySorted_snoc_le in Hs.
           eapply Forall_impl; [| exact Hs]. simpl. intros; lia.
    + split; [reflexivity |]. rewrite W in *. simpl in *. subst K. reflexivity.
Qed.

Lemma MinK_insert_Forall (P : Z * Z -> Prop) kv inf s :
  P (kv, inf) -> Forall P (MinK.items s) ->
  Forall P (MinK.items (MinK.insert kv inf s)).
Proof.
  intros He Hs. unfold MinK.insert.
  destruct (_ <? MinK.k s); simpl.
  - apply MinK_ins_Forall; assumption.
  - pose proof (MinK_worst_inv (MinK.items s)) as W.
    destruct (MinK.worst (MinK.items s)) as [d |]; [| exact Hs].
    destruct (kv <? d); [| exact Hs]. simpl.
    apply MinK_ins_Forall; [assumption |].
    destruct W as (r & i & E & ->). rewrite E in Hs.
    apply Forall_app in Hs. tauto.
Qed.

(** A finite pruning bound means that the set is full and that every key
    held is at most the bound. *)
Lemma MinK_max_key_Fin (K : nat) m s :
  MinK.k s = Z.of_nat K ->
  StronglySorted Z.le (MinK.keys s) ->
  (length (MinK.items s) <= K)%nat ->
  MinK.max_key s = Fin m ->
  length (MinK.keys s) = K /\ Forall (fun y => y <= m) (MinK.keys s).
Proof.
  intros Hk Hs Hl. unfold MinK.max_key, MinK.keys in *.
  destruct (Z.ltb_spec (Z.of_nat (length (MinK.items s))) (MinK.k s));
    [discriminate |].
  pose proof (MinK_worst_inv (MinK.items s)) as W.
  destruct (MinK.worst (MinK.items s)) as [d |]; [| discriminate].
  intros E; inversion E; subst d. destruct W as (r & i & Er & _).
  split; [rewrite length_map; lia |].
  rewrite Er, map_app in *. simpl in *.
  apply StronglySorted_snoc_le. exact Hs.
Qed.

(** ** The chunked scan of one point *)

Lemma scan_chunk_range n :
  forall q ps qq pp dist,
    scan_chunk n q ps qq pp dist = dist + sq_range q ps qq pp n.
Proof.
  induction n as [| n IH]; intros q ps qq pp dist; simpl.
  - lia.
  - rewrite IH. unfold ANN_SUM, ANN_POW. lia.
Qed.

Lemma sq_range_app n :
  forall q ps qq pp m,
    sq_range q ps qq pp (n + m)
    = sq_range q ps qq pp n + sq_range q ps (qq + n) (pp + n) m.
Proof.
  induction n as [| n IH]; intros q ps qq pp m; simpl.
  - rewrite !Nat.add_0_r. reflexivity.
  - rewrite IH.
    replace (qq + S n)%nat with (S qq + n)%nat by lia.
    replace (pp + S n)%nat with (S pp + n)%nat by lia. ring.
Qed.

Lemma sq_range_nonneg n :
  forall q ps qq pp, 0 <= sq_range q ps qq pp n.
Proof.
  induction n as [| n IH]; intros q ps qq pp; simpl; [lia |].
  specialize (IH q ps (S qq) (S pp)).
  pose proof (Z.square_nonneg (nth qq q 0 - nth pp ps 0)). lia.
Qed.

Lemma sq_prefix_mono q ps pp n m :
  (n <= m)%nat -> sq_prefix q ps pp n <= sq_prefix q ps pp m.
Proof.
  intros H. unfold sq_prefix. replace m with (n + (m - n))%nat by lia.
  rewrite sq_range_app.
  pose proof (sq_range_nonneg (m - n) q ps (0 + n) (pp + n)). lia.
Qed.

Lemma chunks_end_4 : chunks_end SCAN_CHUNKS = SCAN_WIDTH.
Proof. reflexivity. Qed.

Lemma scan_point_outcome q ps pp min_dist :
  scan_point SCAN_CHUNKS 0 q ps 0 pp 0 min_dist
  = scan_outcome q ps pp min_dist.
Proof.
  unfold scan_outcome, sq_prefix, chunks_end, SCAN_CHUNKS.
  cbn [scan_point]. rewrite !scan_chunk_range.
  generalize SCAN_CHUNK_LEN as c. intros c.
  replace (1 * c)%nat with c by lia.
  replace (2 * c)%nat with (c + c)%nat by lia.
  replace (3 * c)%nat with (c + c + c)%nat by lia.
  replace (4 * c)%nat with (c + c + c + c)%nat by lia.
  rewrite !sq_range_app. rewrite !Nat.add_0_l, !Z.add_0_l.
  rewrite <- !Nat.add_assoc.
  repeat match goal with
         | |- context [exceeds ?a ?b] => destruct (exceeds a b)
         end; reflexivity.
Qed.

Lemma exceeds_mono a b m :
  a <= b -> exceeds a m = true -> exceeds b m = true.
Proof.
  unfold exceeds. destruct m; [| discriminate].
  rewrite !Z.ltb_lt. lia.
Qed.

(** Either the point is scanned to the end, and [dist] is its distance over
    the full scan width, or it is abandoned, and then its distance over the
    full width exceeds the bound as well. *)
Lemma scan_outcome_cases q ps pp m :
  let r := scan_outcome q ps pp m in
  ((SCAN_CHUNKS <=? fst r)%nat = true
   /\ snd r = sq_prefix q ps pp SCAN_WIDTH)
  \/ ((SCAN_CHUNKS <=? fst r)%nat = false
      /\ exceeds (sq_prefix q ps pp SCAN_WIDTH) m = true).
Proof.
  unfold scan_outcome. rewrite <- chunks_end_4.
  assert (M : forall j, (j <= SCAN_CHUNKS)%nat ->
            exceeds (sq_prefix q ps pp (chunks_end j)) m = true ->
            exceeds (sq_prefix q ps pp (chunks_end SCAN_CHUNKS)) m = true).
  { intros j Hj. apply exceeds_mono, sq_prefix_mono.
    unfold chunks_end. apply Nat.mul_le_mono_r. exact Hj. }
  destruct (exceeds (sq_prefix q ps pp (chunks_end 1)) m) eqn:E1;
    [right; split; [reflexivity | apply (M 1%nat); [unfold SCAN_CHUNKS; lia | exact E1]] |].
  destruct (exceeds (sq_prefix q ps pp (chunks_end 2)) m) eqn:E2;
    [right; split; [reflexivity | apply (M 2%nat); [unfold SCAN_CHUNKS; lia | exact E2]] |].
  destruct (exceeds (sq_prefix q ps pp (chunks_end 3)) m) eqn:E3;
    [right; split; [reflexivity | apply (M 3%nat); [unfold SCAN_CHUNKS; lia | exact E3]] |].
  destruct (exceeds (sq_prefix q ps pp (chunks_end 4)) m) eqn:E4;
    [right; split; [reflexivity | exact E4] |].
  left. split; reflexivity.
Qed.

Section LeafScan.

Variables (q ps : list Z) (K : nat).

Lemma holds_smallest_wf seen s :
  holds_smallest q ps K seen s ->
  StronglySorted Z.le (MinK.keys s) /\ (length (MinK.items s) <= K)%nat.
Proof.
  intros (_ & Hk & _). split.
  - rewrite Hk. apply StronglySorted_firstn, sortZ_sorted.
  - assert (E : length (MinK.keys s) = length (MinK.items s))
      by apply length_map.
    rewrite <- E, Hk. apply firstn_le_length.
Qed.

Lemma holds_smallest_perm seen seen' s :
  Permutation seen seen' -> holds_smallest q ps K seen s -> holds_smallest q ps K seen' s.
Proof.
  intros HP (H1 & H2 & H3). split; [exact H1 |]. split.
  - rewrite H2. unfold k_smallest. f_equal.
    apply sortZ_perm, Permutation_map, HP.
  - eapply Forall_impl; [| exact H3]. simpl. intros e [Ha Hb].
    split; [exact Ha |]. eapply Permutation_in; eassumption.
Qed.

Lemma holds_smallest_insert seen s i :
  holds_smallest q ps K seen s ->
  holds_smallest q ps K (i :: seen) (MinK.insert (scan_dist q ps i) i s).
Proof.
  intros H. destruct (holds_smallest_wf _ _ H) as [Hs Hl].
  destruct H as (H1 & H2 & H3).
  destruct (MinK_insert_keys K (scan_dist q ps i) i s H1 Hs Hl) as [Ek Ekeys].
  split; [congruence |]. split.
  - rewrite Ekeys, H2. unfold k_smallest. simpl.
    apply firstn_insZ_firstn.
  - apply MinK_insert_Forall.
    + simpl. auto.
    + eapply Forall_impl; [| exact H3]. simpl. intros e [Ha Hb]. auto.
Qed.

Lemma holds_smallest_skip_le seen s m i :
  holds_smallest q ps K seen s ->
  MinK.max_key s = Fin m -> m <= scan_dist q ps i ->
  holds_smallest q ps K (i :: seen) s.
Proof.
  intros H Em Hex. destruct (holds_smallest_wf _ _ H) as [Hs Hl].
  destruct H as (H1 & H2 & H3).
  destruct (MinK_max_key_Fin K m s H1 Hs Hl Em) as [Hlen Hle].
  split; [exact H1 |]. split.
  - unfold k_smallest in *. simpl.
    rewrite <- firstn_insZ_firstn, <- H2.
    rewrite firstn_insZ_ge.
    + rewrite firstn_all2; [reflexivity | lia].
    + lia.
    + rewrite firstn_all2 by lia.
      eapply Forall_impl; [| exact Hle]. simpl. intros; lia.
  - eapply Forall_impl; [| exact H3]. simpl. intros e [Ha Hb]. auto.
Qed.

Lemma holds_smallest_skip seen s i :
  holds_smallest q ps K seen s ->
  exceeds (scan_dist q ps i) (MinK.max_key s) = true ->
  holds_smallest q ps K (i :: seen) s.
Proof.
  intros H Hex. unfold exceeds in Hex.
  destruct (MinK.max_key s) as [m |] eqn:Em; [| discriminate].
  apply Z.ltb_lt in Hex.
  apply (holds_smallest_skip_le seen s m i H Em). lia.
Qed.

Lemma holds_smallest_skip_all seen s m :
  forall rest,
    holds_smallest q ps K seen s ->
    MinK.max_key s = Fin m ->
    Forall (fun i => m <= scan_dist q ps i) rest ->
    holds_smallest q ps K (rest ++ seen) s.
Proof.
  induction rest as [| i rest IH]; intros H Em Hall; [exact H |].
  inversion Hall; subst. simpl.
  apply (holds_smallest_skip_le _ s m i); auto.
Qed.

Lemma leaf_scan_holds :
  forall bkt seen s,
    holds_smallest q ps K seen s ->
    holds_smallest q ps K (rev bkt ++ seen)
                   (leaf_scan bkt q ps s (MinK.max_key s)).
Proof.
  induction bkt as [| i bkt IH]; intros seen s H; [exact H |].
  cbn [leaf_scan]. rewrite scan_point_outcome.
  pose proof (scan_outcome_cases q ps (point_offset i) (MinK.max_key s)) as C.
  destruct (scan_outcome q ps (point_offset i) (MinK.max_key s)) as [d dist].
  simpl in C. simpl rev. rewrite <- app_assoc. simpl.
  destruct C as [[Hd Hdist] | [Hd Hex]]; rewrite Hd.
  - subst dist. apply IH. apply holds_smallest_insert. exact H.
  - apply IH. apply holds_smallest_skip; assumption.
Qed.

End LeafScan.

(** ** Boxes and their distances *)

Lemma annBoxDistance_fbox q lo hi n :
  annBoxDistance q lo hi n
  = fbox_dist q (fun j => nth j lo 0) (fun j => nth j hi 0) n.
Proof.
  induction n as [| n IH]; simpl; [reflexivity |].
  rewrite IH. reflexivity.
Qed.

Lemma fbox_dist_ext q lo hi lo' hi' n :
  (forall j, (j < n)%nat -> lo' j = lo j /\ hi' j = hi j) ->
  fbox_dist q lo' hi' n = fbox_dist q lo hi n.
Proof.
  induction n as [| n IH]; intros H; simpl; [reflexivity |].
  rewrite IH by (intros j Hj; apply H; lia).
  destruct (H n ltac:(lia)) as [-> ->]. reflexivity.
Qed.

(** Only the contribution of one axis changes when the box changes along
    that axis. *)
Lemma fbox_dist_upd q lo hi lo' hi' cd n :
  (cd < n)%nat ->
  (forall j, j <> cd -> lo' j = lo j /\ hi' j = hi j) ->
  fbox_dist q lo' hi' n
  = fbox_dist q lo hi n - box_axis (nth cd q 0) (lo cd) (hi cd)
    + box_axis (nth cd q 0) (lo' cd) (hi' cd).
Proof.
  intros Hcd H. induction n as [| n IH]; [lia |].
  simpl. destruct (Nat.eq_dec cd n) as [-> | Hne].
  - rewrite (fbox_dist_ext q lo hi lo' hi' n)
      by (intros j Hj; apply H; lia).
    lia.
  - rewrite IH by lia. destruct (H n ltac:(lia)) as [-> ->]. lia.
Qed.

Lemma box_axis_le x p l h :
  l <= p <= h -> box_axis x l h <= (x - p) * (x - p).
Proof.
  intros H. unfold box_axis, ANN_POW.
  destruct (Z.ltb_spec x l); [nia |].
  destruct (Z.ltb_spec h x); [nia |].
  apply Z.square_nonneg.
Qed.

Lemma sq_prefix_S q ps pp n :
  sq_prefix q ps pp (S n)
  = sq_prefix q ps pp n
    + (nth n q 0 - nth (pp + n) ps 0) * (nth n q 0 - nth (pp + n) ps 0).
Proof.
  unfold sq_prefix. replace (S n) with (n + 1)%nat by lia.
  rewrite sq_range_app. simpl. lia.
Qed.

(** The distance to a box bounds the distance to its points from below. *)
Lemma fbox_dist_le q ps lo hi pp n :
  (forall j, (j < n)%nat -> lo j <= nth (pp + j) ps 0 <= hi j) ->
  fbox_dist q lo hi n <= sq_prefix q ps pp n.
Proof.
  induction n as [| n IH]; intros H; [unfold sq_prefix; simpl; lia |].
  rewrite sq_prefix_S. simpl.
  specialize (IH ltac:(intros j Hj; apply H; lia)).
  pose proof (box_axis_le (nth n q 0) (nth (pp + n) ps 0) (lo n) (hi n)
                          (H n ltac:(lia))).
  lia.
Qed.

Lemma in_box_weaken D ps lo hi lo' hi' i :
  (forall j, lo j <= lo' j /\ hi' j <= hi j) ->
  in_box D ps lo' hi' i -> in_box D ps lo hi i.
Proof.
  intros H Hb j Hj. specialize (Hb j Hj). specialize (H j). lia.
Qed.

Lemma wf_node_in_box D ps np :
  forall lo hi, wf_node D ps lo hi np ->
                Forall (in_box D ps lo hi) (all_idx np).
Proof.
  induction np as [| bkt | cd cv clo chi cl IHl ch IHh]; intros lo hi H;
    simpl in *.
  - constructor.
  - exact H.
  - destruct H as (Hcd & -> & -> & Hcv & Hl & Hh).
    apply Forall_app. split.
    + eapply Forall_impl; [| apply (IHl _ _ Hl)].
      intros i. apply in_box_weaken. intros j. unfold fupd.
      destruct (Nat.eqb_spec j cd); [subst; lia | lia].
    + eapply Forall_impl; [| apply (IHh _ _ Hh)].
      intros i. apply in_box_weaken. intros j. unfold fupd.
      destruct (Nat.eqb_spec j cd); [subst; lia | lia].
Qed.

(** The two children of a split node: the box distance of the closer one is
    that of the parent, the box distance of the other one is [new_dist]. *)
Lemma split_box_dists q lo hi cd cv n :
  (cd < n)%nat -> lo cd <= cv <= hi cd ->
  let x := nth cd q 0 in
  let bd := fbox_dist q lo hi n in
  (x - cv < 0 ->
   fbox_dist q lo (fupd hi cd cv) n = bd
   /\ fbox_dist q (fupd lo cd cv) hi n
      = new_dist bd (clamp0 (lo cd - x)) (x - cv))
  /\ (0 <= x - cv ->
      fbox_dist q (fupd lo cd cv) hi n = bd
      /\ fbox_dist q lo (fupd hi cd cv) n
         = new_dist bd (clamp0 (x - hi cd)) (x - cv)).
Proof.
  intros Hcd Hcv x bd.
  assert (Ehi := fbox_dist_upd q lo hi lo (fupd hi cd cv) cd n Hcd).
  assert (Elo := fbox_dist_upd q lo hi (fupd lo cd cv) hi cd n Hcd).
  rewrite Ehi, Elo;
    try (intros j Hj; unfold fupd; destruct (Nat.eqb_spec j cd);
         [contradiction | auto]).
  fold x bd. unfold fupd. rewrite Nat.eqb_refl.
  rewrite !new_dist_eq, !clamp0_max.
  unfold box_axis, ANN_POW.
  split; intros Hx.
  - destruct (Z.ltb_spec x (lo cd)); destruct (Z.ltb_spec x cv);
      destruct (Z.ltb_spec cv x); destruct (Z.ltb_spec (hi cd) x);
      try lia;
      destruct (Z.max_spec 0 (lo cd - x)) as [[? ->] | [? ->]]; lia.
  - destruct (Z.ltb_spec x (lo cd)); destruct (Z.ltb_spec x cv);
      destruct (Z.ltb_spec cv x); destruct (Z.ltb_spec (hi cd) x);
      try lia;
      destruct (Z.max_spec 0 (x - hi cd)) as [[? ->] | [? ->]];
      try lia; assert (x = cv) by lia; subst x; lia.
Qed.

(** ** The queue of boxes *)

Lemma PrQueue_ins_perm e l : Permutation (e :: l) (PrQueue.ins e l).
Proof.
  induction l as [| y l IH]; simpl; [apply Permutation_refl |].
  destruct (fst e <? fst y); [apply Permutation_refl |].
  eapply perm_trans; [apply perm_swap | apply perm_skip, IH].
Qed.

Lemma PrQueue_ins_sorted e l :
  StronglySorted prio_le l -> StronglySorted prio_le (PrQueue.ins e l).
Proof.
  induction 1 as [| y l Hs IH Hy]; simpl.
  - repeat constructor.
  - destruct (Z.ltb_spec (fst e) (fst y)).
    + constructor; [constructor; assumption |].
      constructor; [unfold prio_le; lia |].
      eapply Forall_impl; [| exact Hy]. unfold prio_le. intros; lia.
    + constructor; [exact IH |].
      eapply Permutation_Forall; [apply PrQueue_ins_perm |].
      constructor; [unfold prio_le; lia | exact Hy].
Qed.

Lemma queue_idx_ins e l :
  Permutation (queue_idx (PrQueue.ins e l)) (all_idx (snd e) ++ queue_idx l).
Proof.
  unfold queue_idx.
  change (all_idx (snd e) ++ flat_map (fun e0 => all_idx (snd e0)) l)
    with (flat_map (fun e0 => all_idx (snd e0)) (e :: l)).
  apply Permutation_flat_map, Permutation_sym, PrQueue_ins_perm.
Qed.

Section Search.

Variables (q ps : list Z) (K : nat).

Lemma queue_ok_ins e l : entry_ok q ps e -> queue_ok q ps l -> queue_ok q ps (PrQueue.ins e l).
Proof.
  intros He [Hf Hs]. split.
  - eapply Permutation_Forall; [apply PrQueue_ins_perm |]. auto.
  - apply PrQueue_ins_sorted. exact Hs.
Qed.

Lemma entry_ok_bound e :
  entry_ok q ps e -> Forall (fun i => fst e <= scan_dist q ps i) (all_idx (snd e)).
Proof.
  intros (lo & hi & Hwf & ->).
  eapply Forall_impl; [| apply (wf_node_in_box _ _ _ _ _ Hwf)].
  intros i Hb. unfold scan_dist. apply fbox_dist_le. exact Hb.
Qed.

Lemma queue_ok_bound e l :
  queue_ok q ps (e :: l) ->
  Forall (fun i => fst e <= scan_dist q ps i) (queue_idx (e :: l)).
Proof.
  intros [Hf Hs]. inversion Hs as [| ? ? Hs' Hle]; subst.
  unfold queue_idx. apply Forall_flat_map.
  inversion Hf as [| ? ? He Hf']; subst.
  constructor; [apply entry_ok_bound; exact He |].
  rewrite Forall_forall in *. intros e' Hin.
  eapply Forall_impl; [| apply entry_ok_bound, Hf', Hin].
  simpl. intros i Hi. specialize (Hle e' Hin). unfold prio_le in Hle. lia.
Qed.

Lemma enqueue_far_ok nd far st :
  entry_ok q ps (nd, far) ->
  queue_ok q ps (PrQueue.entries (ANNprBoxPQ st)) ->
  queue_ok q ps (PrQueue.entries (ANNprBoxPQ (enqueue_far nd far st)))
  /\ Permutation
       (queue_idx (PrQueue.entries (ANNprBoxPQ (enqueue_far nd far st))))
       (all_idx far ++ queue_idx (PrQueue.entries (ANNprBoxPQ st))).
Proof.
  intros He Hq. unfold enqueue_far.
  destruct (is_trivial far) eqn:E.
  - destruct far; try discriminate. split; [exact Hq | apply Permutation_refl].
  - split; [apply queue_ok_ins; assumption |].
    exact (queue_idx_ins (nd, far) _).
Qed.

(** The descent keeps the queue in order and moves the indices of the node,
    those of the bucket reached apart, into the queue. *)
Lemma enqueue_path_ok np :
  forall lo hi st,
    wf_node SCAN_WIDTH ps lo hi np ->
    ANNprQ st = q ->
    queue_ok q ps (PrQueue.entries (ANNprBoxPQ st)) ->
    let st' := enqueue_path np (fbox_dist q lo hi SCAN_WIDTH) st in
    queue_ok q ps (PrQueue.entries (ANNprBoxPQ st'))
    /\ Permutation
         (bucket (near_leaf q np) ++ queue_idx (PrQueue.entries (ANNprBoxPQ st')))
         (all_idx np ++ queue_idx (PrQueue.entries (ANNprBoxPQ st))).
Proof.
  induction np as [| bkt | cd cv clo chi cl IHl ch IHh];
    intros lo hi st Hwf HQ Hq;
    cbn [enqueue_path near_leaf bucket all_idx wf_node] in *; cbv zeta.
  - split; [exact Hq | apply Permutation_refl].
  - split; [exact Hq | apply Permutation_refl].
  - destruct Hwf as (Hcd & -> & -> & Hcv & Hl & Hh).
    rewrite HQ.
    destruct (split_box_dists q lo hi cd cv SCAN_WIDTH Hcd Hcv) as [Slt Sge].
    destruct (Z.ltb_spec (nth cd q 0 - cv) 0) as [Hx | Hx].
    + destruct (Slt Hx) as [Enear Efar].
      match goal with |- context [enqueue_far ?n ch st] =>
        destruct (enqueue_far_ok n ch st) as [Hq1 HP1] end.
      { exists (fupd lo cd cv), hi. split; [exact Hh | symmetry; exact Efar]. }
      { exact Hq. }
      match goal with |- context [enqueue_path cl _ ?s] =>
        destruct (IHl lo (fupd hi cd cv) s Hl) as [Hq2 HP2] end.
      { rewrite enqueue_far_Q. exact HQ. }
      { exact Hq1. }
      rewrite Enear in Hq2, HP2.
      split; [exact Hq2 |].
      eapply perm_trans; [exact HP2 |].
      rewrite <- app_assoc. apply Permutation_app_head. exact HP1.
    + destruct (Sge Hx) as [Enear Efar].
      match goal with |- context [enqueue_far ?n cl st] =>
        destruct (enqueue_far_ok n cl st) as [Hq1 HP1] end.
      { exists lo, (fupd hi cd cv). split; [exact Hl | symmetry; exact Efar]. }
      { exact Hq. }
      match goal with |- context [enqueue_path ch _ ?s] =>
        destruct (IHh (fupd lo cd cv) hi s Hh) as [Hq2 HP2] end.
      { rewrite enqueue_far_Q. exact HQ. }
      { exact Hq1. }
      rewrite Enear in Hq2, HP2.
      split; [exact Hq2 |].
      eapply perm_trans; [exact HP2 |].
      eapply perm_trans; [apply Permutation_app_head; exact HP1 |].
      rewrite !app_assoc. apply Permutation_app_tail, Permutation_app_comm.
Qed.

End Search.

(** ** Exactness of the search without error bound and without budget *)

Section Exact.

Variables (q ps : list Z) (K : nat) (all : list Z).

Lemma reaches_exact (bd : Z) (m : PQKkey) :
  reaches (inject_Z bd * ANN_POW_dbl (1 + 0)) m ->
  exists d, m = Fin d /\ d <= bd.
Proof.
  destruct m as [d |]; simpl; [| tauto].
  intros H. exists d. split; [reflexivity |].
  rewrite Zle_Qle.
  assert (E : (inject_Z bd * ANN_POW_dbl (1 + 0) == inject_Z bd)%Q)
    by (unfold ANN_POW_dbl; ring).
  rewrite E in H. exact H.
Qed.

Lemma dispatch_inv bd np rest st :
  search_inv q ps K all st ->
  PrQueue.extr_min (ANNprBoxPQ st) = Some ((bd, np), rest) ->
  search_inv q ps K all (ann_pri_search np bd (set_BoxPQ rest st)).
Proof.
  intros (HQ & HP & HE & Hq & seen & Hs & Hperm) Hex.
  unfold PrQueue.extr_min in Hex.
  destruct (PrQueue.entries (ANNprBoxPQ st)) as [| e l] eqn:E;
    [discriminate |].
  inversion Hex; subst e rest. clear Hex.
  destruct Hq as [Hf Hsort].
  apply Forall_cons_iff in Hf. destruct Hf as [He Hf'].
  apply StronglySorted_inv in Hsort. destruct Hsort as [Hsort' _].
  destruct He as (lo & hi & Hwf & Hbd). cbn [fst snd] in Hwf, Hbd.
  set (st1 := set_BoxPQ (PrQueue.mk (PrQueue.max_size (ANNprBoxPQ st)) l) st).
  destruct (enqueue_path_ok q ps np lo hi st1 Hwf HQ) as [Hq2 HP2].
  { split; assumption. }
  rewrite <- Hbd in Hq2, HP2.
  rewrite ann_pri_search_descent.
  change (ANNprQ st1) with (ANNprQ st). rewrite HQ.
  unfold search_inv.
  cbn [ANNkd_leaf_ann_pri_search set_ptsVisited set_PointMK ANNprQ ANNprPts
       ANNprMaxErr ANNprBoxPQ ANNprPointMK].
  destruct (enqueue_path_inputs np bd st1) as (I1 & _ & I3 & I4).
  rewrite I1, I3, I4, enqueue_path_PointMK.
  change (ANNprMaxErr st1) with (ANNprMaxErr st).
  change (ANNprQ st1) with (ANNprQ st).
  change (ANNprPts st1) with (ANNprPts st).
  change (ANNprPointMK st1) with (ANNprPointMK st).
  rewrite HQ, HP.
  split; [reflexivity |]. split; [reflexivity |].
  split; [exact HE |]. split; [exact Hq2 |].
  exists (rev (bucket (near_leaf q np)) ++ seen). split.
  - apply leaf_scan_holds. exact Hs.
  - eapply perm_trans; [| exact Hperm].
    rewrite <- app_assoc.
    eapply perm_trans;
      [apply Permutation_app_tail, Permutation_sym, Permutation_rev |].
    eapply perm_trans; [apply Permutation_app_swap_app |].
    apply Permutation_app_head.
    eapply perm_trans; [exact HP2 |]. simpl. apply Permutation_refl.
Qed.

Lemma pri_loop_exact :
  forall fuel st,
    (store_weight st < fuel)%nat -> search_inv q ps K all st ->
    holds_smallest q ps K all (ANNprPointMK (snd (pri_loop fuel 0 st))).
Proof.
  induction fuel as [| fuel IH]; intros st Hw Hinv; [lia |].
  simpl. pose proof (pri_iter_cases 0 st) as C.
  destruct (pri_iter 0 st) as [why st' | np bd st'] eqn:Eit.
  - simpl. destruct Hinv as (HQ & HP & HE & Hq & seen & Hs & Hperm).
    destruct why.
    + destruct C as [-> Hnil]. rewrite Hnil in Hperm. simpl in Hperm.
      rewrite app_nil_r in Hperm.
      eapply holds_smallest_perm; eassumption.
    + destruct C as (_ & _ & Hb). discriminate.
    + destruct C as (bd & np & rest & Hex & _ & -> & Hr).
      apply bound_reached_iff in Hr.
      change (ANNprMaxErr (set_BoxPQ rest st)) with (ANNprMaxErr st) in Hr.
      change (ANNprPointMK (set_BoxPQ rest st)) with (ANNprPointMK st) in *.
      rewrite HE in Hr. apply reaches_exact in Hr.
      destruct Hr as (m & Em & Hm).
      unfold PrQueue.extr_min in Hex.
      destruct (PrQueue.entries (ANNprBoxPQ st)) as [| e l] eqn:E;
        [discriminate |].
      inversion Hex; subst e. clear Hex.
      apply (holds_smallest_perm q ps K
               (queue_idx ((bd, np) :: l) ++ seen)).
      * eapply perm_trans; [apply Permutation_app_comm | exact Hperm].
      * apply (holds_smallest_skip_all q ps K seen _ m); auto.
        eapply Forall_impl; [| apply (queue_ok_bound q ps _ _ Hq)].
        simpl. intros; lia.
    + contradiction.
  - destruct C as (rest & Hex & _ & _ & ->).
    apply IH.
    + apply pri_iter_weight in Eit. lia.
    + eapply dispatch_inv; eassumption.
Qed.

End Exact.

(** ** The search against brute force *)

Lemma skipn_nth_cons (l : list Z) :
  forall n, (n < length l)%nat -> skipn n l = nth n l 0 :: skipn (S n) l.
Proof.
  induction l as [| x l IH]; intros n Hn; simpl in Hn; [lia |].
  destruct n as [| n]; [reflexivity |].
  change (skipn (S n) (x :: l)) with (skipn n l).
  change (nth (S n) (x :: l) 0) with (nth n l 0).
  change (skipn (S (S n)) (x :: l)) with (skipn (S n) l).
  apply IH. lia.
Qed.

Lemma sq_range_sq_dist q ps n :
  forall qq pp,
    (qq + n <= length q)%nat -> (pp + n <= length ps)%nat ->
    sq_range q ps qq pp n
    = sq_dist (firstn n (skipn qq q)) (firstn n (skipn pp ps)).
Proof.
  induction n as [| n IH]; intros qq pp Hq Hp; [reflexivity |].
  rewrite (skipn_nth_cons q qq) by lia.
  rewrite (skipn_nth_cons ps pp) by lia.
  simpl. rewrite IH by lia. reflexivity.
Qed.

(** Over points of 128 coordinates the leaf handler measures the squared
    Euclidean distance. *)
Lemma scan_dist_sq_dist q ps i :
  length q = SCAN_WIDTH ->
  (S i * SCAN_WIDTH <= length ps)%nat ->
  scan_dist q ps (Z.of_nat i) = sq_dist q (stored_point SCAN_WIDTH ps i).
Proof.
  intros Hq Hp. unfold scan_dist, sq_prefix, point_offset, stored_point.
  rewrite Nat2Z.id.
  rewrite sq_range_sq_dist by (rewrite ?Hq; unfold SCAN_WIDTH in *; lia).
  change (skipn 0 q) with q. rewrite firstn_all2 by lia. reflexivity.
Qed.

Lemma sq_dist_zero :
  forall q p, length q = length p -> sq_dist q p = 0 -> q = p.
Proof.
  induction q as [| x q IH]; intros [| y p] Hl H; simpl in *;
    try discriminate; [reflexivity |].
  assert (Hn : forall a b, length a = length b -> 0 <= sq_dist a b).
  { clear. induction a as [| u a IHa]; intros [| v b] Hl; simpl in *;
      try lia.
    specialize (IHa b ltac:(lia)).
    pose proof (Z.square_nonneg (u - v)). lia. }
  specialize (Hn q p ltac:(lia)).
  pose proof (Z.square_nonneg (x - y)).
  assert (Hx : (x - y) * (x - y) = 0) by lia.
  assert (x = y) by nia. subst y.
  f_equal. apply IH; lia.
Qed.

Lemma extract_map {A B : Type} (f : A -> B) (d : B) :
  forall (l : list A) (n : nat),
    map (fun i => match nth_error l i with Some e => f e | None => d end)
        (seq 0 n)
    = map f (firstn n l) ++ repeat d (n - length l).
Proof.
  intros l n. revert l. induction n as [| n IH]; intros l; [reflexivity |].
  cbn [seq]. rewrite <- seq_shift. cbn [map]. rewrite map_map.
  destruct l as [| x l]; cbn [nth_error firstn length map app repeat Nat.sub].
  - f_equal.
    transitivity
      (map (fun i => match nth_error (@nil A) i with
                     | Some e => f e | None => d end) (seq 0 n)).
    + apply map_ext. intros [| i]; reflexivity.
    + rewrite (IH []). rewrite firstn_nil, Nat.sub_0_r. reflexivity.
  - f_equal. rewrite <- IH. apply map_ext. intros i. reflexivity.
Qed.

Lemma extract_dd_keys k pmk :
  extract_dd k pmk
  = map Fin (firstn (Z.to_nat k) (MinK.keys pmk))
    ++ repeat ANN_DIST_INF (Z.to_nat k - length (MinK.items pmk)).
Proof.
  unfold extract_dd, MinK.ith_smallest_key, MinK.keys.
  rewrite (extract_map (fun e => Fin (fst e))).
  rewrite firstn_map, map_map. reflexivity.
Qed.

Lemma extract_nn_idx_infos k pmk :
  extract_nn_idx k pmk
  = map snd (firstn (Z.to_nat k) (MinK.items pmk))
    ++ repeat ANN_NULL_IDX (Z.to_nat k - length (MinK.items pmk)).
Proof.
  unfold extract_nn_idx, MinK.ith_smallest_info.
  apply (extract_map snd).
Qed.

(** The store before the loop satisfies the invariant of the search. *)
Lemma init_store_inv T q k :
  wf_tree T -> dim T = SCAN_WIDTH -> 0 <= k ->
  search_inv q (pts T) (Z.to_nat k) (map Z.of_nat (seq 0 (n_pts T)))
             (init_store T q k 0).
Proof.
  intros (Hwf & Hperm & _) Hdim Hk. unfold search_inv, init_store. simpl.
  repeat (split; [reflexivity |]). split.
  - split; [| repeat constructor].
    constructor; [| constructor].
    exists (fun j => nth j (bnd_box_lo T) 0), (fun j => nth j (bnd_box_hi T) 0).
    cbn [fst snd]. rewrite <- Hdim.
    split; [exact Hwf | apply annBoxDistance_fbox].
  - exists []. split.
    + split; [simpl; lia |]. split; [| constructor].
      unfold MinK.keys, k_smallest. simpl. rewrite firstn_nil. reflexivity.
    + simpl. rewrite app_nil_r. exact Hperm.
Qed.

(** After the search the candidate set holds the smallest distances over
    all stored points. *)
Lemma search_holds_smallest T q k :
  wf_tree T -> dim T = SCAN_WIDTH -> 0 <= k ->
  holds_smallest q (pts T) (Z.to_nat k) (map Z.of_nat (seq 0 (n_pts T)))
                 (ANNprPointMK (snd (pri_search_run T 0 q k 0))).
Proof.
  intros Hwf Hdim Hk. unfold pri_search_run.
  apply pri_loop_exact.
  - rewrite init_store_weight. lia.
  - apply init_store_inv; assumption.
Qed.

Lemma scan_dists_brute_force T q :
  dim T = SCAN_WIDTH -> length q = SCAN_WIDTH ->
  length (pts T) = (n_pts T * dim T)%nat ->
  map (scan_dist q (pts T)) (map Z.of_nat (seq 0 (n_pts T)))
  = brute_force_dists T q.
Proof.
  intros Hdim Hq Hlen. unfold brute_force_dists. rewrite map_map.
  apply map_ext_in. intros i Hi. apply in_seq in Hi.
  rewrite Hdim in *. apply scan_dist_sq_dist; [exact Hq |].
  rewrite Hlen. apply Nat.mul_le_mono_r. lia.
Qed.

Lemma sq_dist_nonneg : forall a b, 0 <= sq_dist a b.
Proof.
  induction a as [| u a IH]; intros [| v b]; simpl; try lia.
  specialize (IH b). pose proof (Z.square_nonneg (u - v)). lia.
Qed.

Lemma sq_dist_refl : forall a, sq_dist a a = 0.
Proof.
  induction a as [| u a IH]; simpl; [reflexivity |].
  rewrite IH. lia.
Qed.

Lemma in_boxb_ok D ps lo hi i :
  in_boxb D ps lo hi i = true -> in_box D ps lo hi i.
Proof.
  unfold in_boxb, in_box. rewrite forallb_forall. intros H j Hj.
  specialize (H j ltac:(apply in_seq; lia)).
  apply andb_true_iff in H. rewrite !Z.leb_le in H. exact H.
Qed.

(** ** The concrete trees are well formed *)

Lemma two_point_tree_wf : wf_tree two_point_tree.
Proof.
  unfold wf_tree, two_point_tree. cbn [root dim pts n_pts bnd_box_lo bnd_box_hi].
  split; [| split; [apply Permutation_refl | reflexivity]].
  cbn [wf_node]. split; [lia |]. split; [reflexivity |].
  split; [reflexivity |]. split; [simpl; lia |].
  split; (constructor; [apply in_boxb_ok; vm_compute; reflexivity
                       | constructor]).
Qed.

Lemma wide_tree_wf : wf_tree wide_tree.
Proof.
  unfold wf_tree, wide_tree. cbn [root dim pts n_pts bnd_box_lo bnd_box_hi].
  split; [| split; [apply Permutation_refl | reflexivity]].
  cbn [wf_node].
  constructor; [apply in_boxb_ok; vm_compute; reflexivity | constructor].
Qed.

Lemma rounding_tree_wf : wf_tree rounding_tree.
Proof.
  unfold wf_tree, rounding_tree.
  cbn [root dim pts n_pts bnd_box_lo bnd_box_hi].
  split; [| split; [apply Permutation_refl | reflexivity]].
  cbn [wf_node]. split; [lia |]. split; [reflexivity |].
  split; [reflexivity |]. split; [simpl; lia |].
  split; (constructor; [apply in_boxb_ok; vm_compute; reflexivity
                       | constructor]).
Qed.

Lemma three_leaf_tree_wf : wf_tree three_leaf_tree.
Proof.
  unfold wf_tree, three_leaf_tree.
  cbn [root dim pts n_pts bnd_box_lo bnd_box_hi].
  split; [| split; [apply Permutation_refl | reflexivity]].
  cbn [wf_node]. split; [lia |]. split; [reflexivity |].
  split; [reflexivity |]. split; [simpl; lia |].
  split.
  - constructor; [apply in_boxb_ok; vm_compute; reflexivity | constructor].
  - split; [lia |]. split; [reflexivity |]. split; [reflexivity |].
    split; [vm_compute; split; discriminate |].
    split.
    + constructor; [apply in_boxb_ok; vm_compute; reflexivity |].
      constructor; [apply in_boxb_ok; vm_compute; reflexivity | constructor].
    + constructor; [apply in_boxb_ok; vm_compute; reflexivity | constructor].
Qed.

(** ** Exactness *)

(** C1 as stated fails for a dimension other than 128: for the well-formed
    tree over one point of 256 coordinates that differs from the query at
    coordinate 200 only, the search with eps = 0 and no budget returns the
    distance 0, and brute force the distance 1. *)
Lemma exactness_counterexample :
  wf_tree wide_tree
  /\ length (zeros 256) = dim wide_tree
  /\ snd (annkPriSearch wide_tree 0 (zeros 256) 1 0) = [Fin 0]
  /\ map Fin (k_smallest 1 (brute_force_dists wide_tree (zeros 256)))
     = [Fin 1]
  /\ snd (annkPriSearch wide_tree 0 (zeros 256) 1 0)
     <> map Fin (k_smallest 1 (brute_force_dists wide_tree (zeros 256))).
Proof.
  split; [apply wide_tree_wf |].
  split; [reflexivity |].
  assert (E1 : snd (annkPriSearch wide_tree 0 (zeros 256) 1 0) = [Fin 0])
    by (vm_compute; reflexivity).
  assert (E2 : map Fin (k_smallest 1 (brute_force_dists wide_tree (zeros 256)))
               = [Fin 1]) by (vm_compute; reflexivity).
  split; [exact E1 |]. split; [exact E2 |].
  rewrite E1, E2. discriminate.
Qed.

(** C1 (amended).  For every well-formed tree over points of dimension 128,
    the width that the leaf handler scans, every query of 128 coordinates
    and every k >= 1, the search with eps = 0 and no budget returns the k
    smallest squared Euclidean distances as computed by brute force; when
    fewer than k points are stored the remaining entries are +infinity. *)
Theorem priority_search_exact :
  forall (T : ANNkd_tree) (q : list ANNcoord) (k : Z),
    wf_tree T -> dim T = SCAN_WIDTH -> length q = SCAN_WIDTH -> 1 <= k ->
    snd (annkPriSearch T 0 q k 0)
    = map Fin (k_smallest (Z.to_nat k) (brute_force_dists T q))
      ++ repeat ANN_DIST_INF (Z.to_nat k - n_pts T).
Proof.
  intros T q k Hwf Hdim Hq Hk.
  pose proof (search_holds_smallest T q k Hwf Hdim ltac:(lia)) as H.
  destruct Hwf as (_ & _ & Hlen).
  unfold annkPriSearch. cbn [snd]. rewrite extract_dd_keys.
  destruct H as (_ & Hkeys & _).
  rewrite scan_dists_brute_force in Hkeys by assumption.
  assert (El : length (MinK.items
                         (ANNprPointMK (snd (pri_search_run T 0 q k 0))))
               = Nat.min (Z.to_nat k) (n_pts T)).
  { rewrite <- (length_map fst). fold (MinK.keys
      (ANNprPointMK (snd (pri_search_run T 0 q k 0)))).
    rewrite Hkeys. unfold k_smallest, brute_force_dists.
    rewrite length_firstn, sortZ_length, length_map, length_seq.
    reflexivity. }
  rewrite El, Hkeys. unfold k_smallest.
  rewrite firstn_firstn, Nat.min_id.
  f_equal. f_equal. lia.
Qed.

(** [priority_search_exact] at the two-point tree. *)
Lemma priority_search_exact_witness :
  snd (annkPriSearch two_point_tree 0 (zeros 128) 1 0)
  = map Fin (k_smallest (Z.to_nat 1)
                        (brute_force_dists two_point_tree (zeros 128)))
    ++ repeat ANN_DIST_INF (Z.to_nat 1 - n_pts two_point_tree).
Proof.
  apply (priority_search_exact two_point_tree (zeros 128) 1).
  - exact two_point_tree_wf.
  - reflexivity.
  - reflexivity.
  - lia.
Defined.

(** ** Zero-distance matches *)

(** C4 as stated fails: the test on [ANN_ALLOW_SELF_MATCH] and [dist != 0]
    is commented out in the scan that is compiled, so no setting of the
    self-match policy reaches it.  Over the two points (0,0,...) = idx0 and
    (3,0,...) = idx1 the search for the nearest neighbour of idx0 returns
    idx0 itself, at distance 0, not idx1. *)
Lemma self_match_counterexample :
  wf_tree two_point_tree
  /\ stored_point 128 (pts two_point_tree) 0 = zeros 128
  /\ annkPriSearch two_point_tree 0 (zeros 128) 1 0 = ([0], [Fin 0])
  /\ fst (annkPriSearch two_point_tree 0 (zeros 128) 1 0) <> [1].
Proof.
  split; [apply two_point_tree_wf |].
  split; [vm_compute; reflexivity |].
  assert (E : annkPriSearch two_point_tree 0 (zeros 128) 1 0 = ([0], [Fin 0]))
    by (vm_compute; reflexivity).
  split; [exact E |]. rewrite E. discriminate.
Qed.

(** C4 (amended).  The leaf scan accepts a zero-distance match like any
    other point: for a well-formed tree over two distinct points of
    dimension 128 and a query equal to the stored point idx0, the search
    for k = 1 (eps = 0, no budget) returns idx0 itself, at distance 0. *)
Theorem self_match_accepted :
  forall (T : ANNkd_tree) (q : list ANNcoord),
    wf_tree T -> dim T = SCAN_WIDTH -> n_pts T = 2%nat ->
    q = stored_point SCAN_WIDTH (pts T) 0 ->
    stored_point SCAN_WIDTH (pts T) 1 <> q ->
    annkPriSearch T 0 q 1 0 = ([0], [Fin 0]).
Proof.
  intros T q Hwf Hdim Hn Hq Hne.
  assert (Hlen : length (pts T) = (2 * SCAN_WIDTH)%nat)
    by (destruct Hwf as (_ & _ & H); rewrite H, Hn, Hdim; reflexivity).
  assert (Hlq : length q = SCAN_WIDTH).
  { subst q. unfold stored_point. rewrite length_firstn, length_skipn.
    rewrite Hlen. unfold SCAN_WIDTH. lia. }
  assert (Hl1 : length (stored_point SCAN_WIDTH (pts T) 1) = SCAN_WIDTH).
  { unfold stored_point. rewrite length_firstn, length_skipn.
    rewrite Hlen. unfold SCAN_WIDTH. lia. }
  pose proof (search_holds_smallest T q 1 Hwf Hdim ltac:(lia)) as H.
  rewrite Hn in H. cbn [seq map] in H.
  change (Z.of_nat 0) with 0 in H. change (Z.of_nat 1) with 1 in H.
  assert (D0 : scan_dist q (pts T) 0 = 0).
  { change 0 with (Z.of_nat 0) at 1.
    rewrite (scan_dist_sq_dist q (pts T) 0 Hlq)
      by (rewrite Hlen; unfold SCAN_WIDTH; lia).
    rewrite <- Hq. apply sq_dist_refl. }
  assert (D1 : 0 < scan_dist q (pts T) 1).
  { change 1 with (Z.of_nat 1).
    rewrite (scan_dist_sq_dist q (pts T) 1 Hlq)
      by (rewrite Hlen; unfold SCAN_WIDTH; lia).
    pose proof (sq_dist_nonneg q (stored_point SCAN_WIDTH (pts T) 1)) as N.
    destruct (Z.eq_dec (sq_dist q (stored_point SCAN_WIDTH (pts T) 1)) 0)
      as [E | E]; [| lia].
    apply sq_dist_zero in E; [| congruence].
    congruence. }
  destruct H as (_ & Hkeys & Hitems).
  unfold k_smallest in Hkeys. cbn [map sortZ fold_right insZ] in Hkeys.
  rewrite D0 in Hkeys.
  assert (E01 : (0 <? scan_dist q (pts T) 1) = true) by (apply Z.ltb_lt; lia).
  rewrite E01 in Hkeys. cbn [Z.to_nat Pos.to_nat Pos.iter_op Nat.add firstn]
    in Hkeys.
  unfold annkPriSearch.
  set (pmk := ANNprPointMK (snd (pri_search_run T 0 q 1 0))) in *.
  unfold MinK.keys in Hkeys.
  destruct (MinK.items pmk) as [| [d i] [| e l]] eqn:Ei; try discriminate.
  cbn [map fst] in Hkeys. inversion Hkeys; subst d.
  inversion Hitems as [| ? ? [Hd Hin] _]; subst. cbn [fst snd] in Hd, Hin.
  assert (i = 0).
  { destruct Hin as [<- | [<- | []]]; [reflexivity | lia]. }
  subst i.
  unfold extract_nn_idx, extract_dd, MinK.ith_smallest_info,
    MinK.ith_smallest_key.
  rewrite Ei. reflexivity.
Qed.

(** [self_match_accepted] at the two-point tree. *)
Lemma self_match_accepted_witness :
  annkPriSearch two_point_tree 0 (zeros 128) 1 0 = ([0], [Fin 0]).
Proof.
  apply (self_match_accepted two_point_tree (zeros 128)).
  - exact two_point_tree_wf.
  - reflexivity.
  - reflexivity.
  - vm_compute. reflexivity.
  - vm_compute. discriminate.
Defined.

(** ** The width of the leaf scan *)

(** C2 as stated fails: with the dimension field at 256, the leaf handler
    records the distance 0 for a point whose squared distance to the query
    over all 256 axes is 1; the coordinates from 128 on are not summed. *)
Lemma scan_width_counterexample :
  ANNprDim wide_store = 256%nat
  /\ length (ANNprQ wide_store) = 256%nat
  /\ length (stored_point 256 (ANNprPts wide_store) 0) = 256%nat
  /\ sq_dist (ANNprQ wide_store) (stored_point 256 (ANNprPts wide_store) 0)
     = 1
  /\ MinK.items
       (ANNprPointMK (ann_pri_search (ANNkd_leaf [0]) 0 wide_store))
     = [(0, 0)].
Proof. repeat split; vm_compute; reflexivity. Qed.

(** C2 (amended).  For every bucket point the leaf handler accumulates the
    squared distance over the 128 coordinates that start at position
    128 * idx of the point array, in 4 chunks of 32; after each chunk it
    compares the partial sum with the pruning bound and abandons the point
    if the sum exceeds it; a point scanned to the end is inserted with the
    sum over the 128 coordinates.  The dimension field has no influence, so
    the number of axes summed is the dimension exactly when that is 128. *)
Theorem leaf_scan_fixed_width :
  forall (q ps : list ANNcoord) (i : ANNidx) (bkt : list ANNidx)
         (pmk : MinK.t) (min_dist : PQKkey) (st : ANNprTempStore)
         (box_dist : ANNdist) (d : nat),
    let pp := point_offset i in
    let part := fun j => sq_prefix q ps pp (chunks_end j) in
    (chunks_end 1 = 32 /\ chunks_end 2 = 64 /\ chunks_end 3 = 96
     /\ chunks_end 4 = 128 /\ pp = Z.to_nat i * 128)%nat
    /\ scan_point SCAN_CHUNKS 0 q ps 0 pp 0 min_dist
       = scan_outcome q ps pp min_dist
    /\ leaf_scan (i :: bkt) q ps pmk min_dist
       = (if exceeds (part 1%nat) min_dist || exceeds (part 2%nat) min_dist
             || exceeds (part 3%nat) min_dist || exceeds (part 4%nat) min_dist
          then leaf_scan bkt q ps pmk min_dist
          else leaf_scan bkt q ps (MinK.insert (part 4%nat) i pmk)
                         (MinK.max_key (MinK.insert (part 4%nat) i pmk)))
    /\ ((128 <= length q)%nat -> (pp + 128 <= length ps)%nat ->
        part 4%nat
        = sq_dist (firstn 128 q) (firstn 128 (skipn pp ps)))
    /\ ANNprPointMK (ann_pri_search (ANNkd_leaf bkt) box_dist (set_Dim d st))
       = ANNprPointMK (ann_pri_search (ANNkd_leaf bkt) box_dist st).
Proof.
  intros q ps i bkt pmk min_dist st bd d pp part.
  split; [repeat split |].
  split; [apply scan_point_outcome |].
  split; [| split; [| reflexivity]].
  - cbn [leaf_scan]. rewrite scan_point_outcome. fold pp.
    unfold scan_outcome. fold (part 1%nat) (part 2%nat) (part 3%nat)
      (part 4%nat).
    destruct (exceeds (part 1%nat) min_dist); [reflexivity |].
    destruct (exceeds (part 2%nat) min_dist); [reflexivity |].
    destruct (exceeds (part 3%nat) min_dist); [reflexivity |].
    destruct (exceeds (part 4%nat) min_dist); reflexivity.
  - intros Hq Hp. subst part. cbv beta. unfold sq_prefix.
    change (chunks_end 4) with 128%nat.
    apply (sq_range_sq_dist q ps 128 0 pp); [exact Hq | exact Hp].
Qed.

(** ** The empty set of candidates *)

Lemma max_key_create k : MinK.max_key (MinK.create k) = ANN_DIST_INF.
Proof.
  unfold MinK.max_key, MinK.create. simpl. destruct (0 <? k); reflexivity.
Qed.

(** ** The theorems at concrete inputs *)


(** [budget_strict_and_overshoot] in binary64 arithmetic, at the two-point
    tree with [eps = 0] and a budget of one point. *)
Lemma budget_strict_and_overshoot_witness :
  let stop := bound_reached_ieee infinity in
  (forall (st : ANNprTempStore_of float) (fuel : nat) (bd : ANNdist)
          (np : ANNkd_node) (rest : PrQueue.t),
      PrQueue.extr_min (ANNprBoxPQ st) = Some ((bd, np), rest) ->
      ANNptsVisited st <= 1 ->
      pri_loop_ieee infinity (S fuel) 1 st
      = (if stop bd (set_BoxPQ rest st)
         then (BoundReached, set_BoxPQ rest st)
         else pri_loop_ieee infinity fuel 1
                (ann_pri_search np bd (set_BoxPQ rest st)))
      /\ ANNptsVisited (ann_pri_search np bd (set_BoxPQ rest st))
         = ANNptsVisited st
           + Z.of_nat (length (bucket (near_leaf (ANNprQ st) np))))
  /\ (forall (st : ANNprTempStore_of float) (fuel : nat),
         PrQueue.non_empty (ANNprBoxPQ st) = true ->
         1 < ANNptsVisited st ->
         pri_loop_ieee infinity (S fuel) 1 st = (BudgetExceeded, st))
  /\ (forall (st : ANNprTempStore_of float) (fuel : nat),
         fst (pri_loop_ieee infinity fuel 1 st) = BudgetExceeded ->
         1 < ANNptsVisited (snd (pri_loop_ieee infinity fuel 1 st))
         /\ PrQueue.non_empty
              (ANNprBoxPQ (snd (pri_loop_ieee infinity fuel 1 st))) = true)
  /\ (0 < 1 ->
      ANNptsVisited
        (snd (pri_search_run_ieee infinity two_point_tree 1 (zeros 128) 2 0))
      <= 1 + max_bucket (root two_point_tree))
  /\ (fst (pri_search_run_ieee infinity three_leaf_tree 1 (zeros 128) 5 0)
      = BudgetExceeded
      /\ ANNptsVisited
           (snd (pri_search_run_ieee infinity three_leaf_tree 1
                                     (zeros 128) 5 0))
         = 1 + max_bucket (root three_leaf_tree)).
Proof.
  apply (budget_strict_and_overshoot float (bound_reached_ieee infinity)
           (ANN_POW_ieee (1 + 0)%float) two_point_tree 1 (zeros 128) 2).
  lia.
Defined.

(** * Further properties of the handlers *)

(** ** The leaf handler *)

Lemma MinK_insert_exceeds kv inf s :
  exceeds kv (MinK.max_key s) = true -> MinK.insert kv inf s = s.
Proof.
  unfold MinK.max_key, MinK.insert, exceeds.
  destruct (Z.of_nat (length (MinK.items s)) <? MinK.k s); [discriminate |].
  destruct (MinK.worst (MinK.items s)) as [d |]; [| reflexivity].
  intros H. apply Z.ltb_lt in H.
  destruct (Z.ltb_spec kv d); [lia | reflexivity].
Qed.

Lemma leaf_scan_insert_all q ps :
  forall bkt s,
    leaf_scan bkt q ps s (MinK.max_key s) = insert_all q ps bkt s.
Proof.
  induction bkt as [| i bkt IH]; intros s; [reflexivity |].
  cbn [leaf_scan]. rewrite scan_point_outcome.
  pose proof (scan_outcome_cases q ps (point_offset i) (MinK.max_key s)) as C.
  destruct (scan_outcome q ps (point_offset i) (MinK.max_key s)) as [d dist].
  cbn [fst snd] in C. unfold insert_all. cbn [fold_left].
  destruct C as [[Hd Hdist] | [Hd Hex]]; rewrite Hd.
  - subst dist. apply IH.
  - fold (scan_dist q ps i) in Hex.
    rewrite (MinK_insert_exceeds _ i s Hex). apply IH.
Qed.

Lemma leaf_search_insert_all bkt bd st :
  ANNprPointMK (ann_pri_search (ANNkd_leaf bkt) bd st)
  = insert_all (ANNprQ st) (ANNprPts st) bkt (ANNprPointMK st).
Proof.
  cbn [ann_pri_search ANNkd_leaf_ann_pri_search set_ptsVisited set_PointMK
       ANNprPointMK].
  apply leaf_scan_insert_all.
Qed.

(** X5.  The chunked check is invisible in the result: the leaf handler
    leaves the candidate set (distances and indices) that inserting every
    bucket point with its distance over all 128 scanned coordinates
    leaves. *)
Theorem leaf_abandon_invisible :
  forall (bkt : list ANNidx) (box_dist : ANNdist) (st : ANNprTempStore),
    ANNprPointMK (ann_pri_search (ANNkd_leaf bkt) box_dist st)
    = insert_all (ANNprQ st) (ANNprPts st) bkt (ANNprPointMK st).
Proof.
  intros bkt bd st. apply leaf_search_insert_all.
Qed.

Lemma MinK_ins_length e l : length (MinK.ins e l) = S (length l).
Proof.
  induction l as [| x l IH]; simpl; [reflexivity |].
  destruct (fst e <? fst x); simpl; [reflexivity | rewrite IH; reflexivity].
Qed.

Lemma MinK_insert_ok K kv inf s :
  MinK_ok K s ->
  MinK_ok K (MinK.insert kv inf s)
  /\ length (MinK.items (MinK.insert kv inf s))
     = Nat.min K (S (length (MinK.items s))).
Proof.
  intros (Hk & Hs & Hl).
  destruct (MinK_insert_keys K kv inf s Hk Hs Hl) as [Ek Ekeys].
  assert (Hlen : length (MinK.items (MinK.insert kv inf s))
                 = Nat.min K (S (length (MinK.items s)))).
  { rewrite <- (length_map fst (MinK.items (MinK.insert kv inf s))).
    fold (MinK.keys (MinK.insert kv inf s)). rewrite Ekeys.
    rewrite length_firstn, insZ_length. unfold MinK.keys.
    rewrite length_map. reflexivity. }
  split; [| exact Hlen].
  split; [congruence |]. split.
  - rewrite Ekeys. apply StronglySorted_firstn, insZ_sorted, Hs.
  - rewrite Hlen. apply Nat.le_min_l.
Qed.

Lemma insert_all_ok q ps K :
  forall bkt s,
    MinK_ok K s ->
    MinK_ok K (insert_all q ps bkt s)
    /\ length (MinK.items (insert_all q ps bkt s))
       = Nat.min K (length (MinK.items s) + length bkt).
Proof.
  induction bkt as [| i bkt IH]; intros s H.
  - split; [exact H |]. destruct H as (_ & _ & Hl). simpl.
    rewrite Nat.add_0_r. lia.
  - unfold insert_all. cbn [fold_left].
    destruct (MinK_insert_ok K (scan_dist q ps i) i s H) as [H' Hlen].
    destruct (IH _ H') as [H'' Hlen'].
    split; [exact H'' |].
    unfold insert_all in Hlen'. rewrite Hlen', Hlen. simpl length. lia.
Qed.

(** X6.  The candidate set never holds more than [k] entries and is filled
    as long as it is not full: after a leaf is processed it holds
    min(k, entries before + bucket size) entries, still in ascending
    order. *)
Theorem leaf_fills_candidates :
  forall (K : nat) (bkt : list ANNidx) (box_dist : ANNdist)
         (st : ANNprTempStore),
    MinK_ok K (ANNprPointMK st) ->
    let s' := ANNprPointMK (ann_pri_search (ANNkd_leaf bkt) box_dist st) in
    MinK_ok K s'
    /\ length (MinK.items s')
       = Nat.min K (length (MinK.items (ANNprPointMK st)) + length bkt).
Proof.
  intros K bkt bd st H s'. subst s'. rewrite leaf_search_insert_all.
  apply insert_all_ok. exact H.
Qed.

Lemma create_ok K : MinK_ok K (MinK.create (Z.of_nat K)).
Proof.
  split; [reflexivity |]. split; [constructor | simpl; lia].
Qed.

(** [leaf_fills_candidates] for a bucket of two points scanned into an
    empty set of capacity 1. *)
Lemma leaf_fills_candidates_witness :
  let st := init_store two_point_tree (zeros 128) 1 0 in
  let s' := ANNprPointMK (ann_pri_search (ANNkd_leaf [1; 0]) 0 st) in
  MinK_ok 1 s'
  /\ length (MinK.items s')
     = Nat.min 1 (length (MinK.items (ANNprPointMK st)) + length [1; 0]).
Proof.
  apply (leaf_fills_candidates 1 [1; 0] 0
           (init_store two_point_tree (zeros 128) 1 0)).
  exact (create_ok 1).
Defined.

(** ** Positions in sorted lists *)

Lemma sorted_nth_le (l : list Z) :
  StronglySorted Z.le l ->
  forall i j, (i <= j)%nat -> (j < length l)%nat -> nth i l 0 <= nth j l 0.
Proof.
  induction 1 as [| y l Hs IH Hy]; intros i j Hij Hj; simpl in Hj; [lia |].
  destruct j as [| j]; [replace i with 0%nat by lia; lia |].
  destruct i as [| i].
  - simpl. rewrite Forall_forall in Hy. apply Hy. apply nth_In. lia.
  - simpl. apply IH; lia.
Qed.

(** Inserting an element does not raise any position of a sorted list. *)
Lemma nth_insZ_le x (l : list Z) :
  StronglySorted Z.le l ->
  forall i, (i < length l)%nat -> nth i (insZ x l) 0 <= nth i l 0.
Proof.
  induction 1 as [| y l Hs IH Hy]; intros i Hi; simpl in Hi; [lia |].
  cbn [insZ]. destruct (Z.ltb_spec x y).
  - destruct i as [| i]; [simpl; lia |].
    change (nth (S i) (x :: y :: l) 0) with (nth i (y :: l) 0).
    apply sorted_nth_le; [constructor; assumption | lia | simpl; lia].
  - destruct i as [| i]; [simpl; lia |].
    simpl. apply IH. lia.
Qed.

(** A position of a sorted list after an insertion holds what it held
    before or something that is not below the element inserted. *)
Lemma nth_insZ_ge x (l : list Z) :
  StronglySorted Z.le l ->
  forall i, (i < length l)%nat ->
            nth i (insZ x l) 0 = nth i l 0 \/ x <= nth i (insZ x l) 0.
Proof.
  induction 1 as [| y l Hs IH Hy]; intros i Hi; simpl in Hi; [lia |].
  cbn [insZ]. destruct (Z.ltb_spec x y).
  - right. destruct i as [| i]; [simpl; lia |].
    change (nth (S i) (x :: y :: l) 0) with (nth i (y :: l) 0).
    destruct i as [| i]; [simpl; lia |].
    simpl. rewrite Forall_forall in Hy.
    assert (y <= nth i l 0) by (apply Hy, nth_In; lia). lia.
  - destruct i as [| i]; [left; reflexivity |].
    simpl. apply IH. lia.
Qed.

(** ** The pruning bound *)

Lemma key_le_refl a : key_le a a.
Proof. destruct a; simpl; [lia | exact I]. Qed.

Lemma key_le_trans a b c : key_le a b -> key_le b c -> key_le a c.
Proof. destruct a, b, c; simpl; try tauto; lia. Qed.

Lemma max_key_nth K s :
  MinK_ok K s ->
  MinK.max_key s
  = if (length (MinK.items s) <? K)%nat then ANN_DIST_INF
    else match K with
         | O => ANN_DIST_INF
         | S j => Fin (nth j (MinK.keys s) 0)
         end.
Proof.
  intros (Hk & Hs & Hl). unfold MinK.max_key. rewrite Hk.
  destruct (Nat.ltb_spec (length (MinK.items s)) K) as [H | H].
  - destruct (Z.ltb_spec (Z.of_nat (length (MinK.items s))) (Z.of_nat K));
      [reflexivity | lia].
  - destruct (Z.ltb_spec (Z.of_nat (length (MinK.items s))) (Z.of_nat K));
      [lia |].
    pose proof (MinK_worst_inv (MinK.items s)) as W.
    destruct (MinK.worst (MinK.items s)) as [d |].
    + destruct W as (r & i & E & _). unfold MinK.keys.
      rewrite E in *. rewrite length_app in *. simpl in *.
      assert (K = S (length r)) by lia. subst K.
      rewrite map_app. rewrite app_nth2 by (rewrite length_map; lia).
      rewrite length_map, Nat.sub_diag. reflexivity.
    + rewrite W in *. simpl in *. replace K with 0%nat by lia. reflexivity.
Qed.

Lemma MinK_insert_tightens K kv inf s :
  MinK_ok K s ->
  key_le (MinK.max_key (MinK.insert kv inf s)) (MinK.max_key s).
Proof.
  intros H. destruct (MinK_insert_ok K kv inf s H) as [H' Hlen].
  rewrite (max_key_nth K _ H'), (max_key_nth K _ H).
  destruct H as (Hk & Hs & Hl).
  destruct (Nat.ltb_spec (length (MinK.items s)) K) as [Hc | Hc].
  - destruct (_ <? K)%nat; [exact I |]. destruct K; exact I.
  - assert (Hfull : length (MinK.items s) = K) by lia.
    rewrite Hlen, Hfull.
    destruct K as [| j]; [simpl; exact I |].
    replace (Nat.min (S j) (S (S j))) with (S j) by lia.
    rewrite Nat.ltb_irrefl. simpl.
    destruct (MinK_insert_keys (S j) kv inf s Hk Hs Hl) as [_ ->].
    rewrite nth_firstn.
    destruct (Nat.ltb_spec j (S j)); [| lia].
    apply nth_insZ_le; [exact Hs |].
    unfold MinK.keys. rewrite length_map. lia.
Qed.

Lemma insert_all_tightens q ps K :
  forall bkt s,
    MinK_ok K s ->
    key_le (MinK.max_key (insert_all q ps bkt s)) (MinK.max_key s).
Proof.
  induction bkt as [| i bkt IH]; intros s H; [apply key_le_refl |].
  unfold insert_all. cbn [fold_left].
  eapply key_le_trans.
  - apply IH. apply MinK_insert_ok. exact H.
  - apply (MinK_insert_tightens K). exact H.
Qed.

(** X7.  Processing a leaf never loosens the pruning bound: [max_key()]
    after the leaf is at most [max_key()] before it (+infinity counting as
    the loosest bound). *)
Theorem leaf_tightens_bound :
  forall (K : nat) (bkt : list ANNidx) (box_dist : ANNdist)
         (st : ANNprTempStore),
    MinK_ok K (ANNprPointMK st) ->
    key_le (MinK.max_key
              (ANNprPointMK (ann_pri_search (ANNkd_leaf bkt) box_dist st)))
           (MinK.max_key (ANNprPointMK st)).
Proof.
  intros K bkt bd st H. rewrite leaf_search_insert_all.
  apply (insert_all_tightens _ _ K). exact H.
Qed.

(** [leaf_tightens_bound] for the bucket of the second point scanned after
    the first one. *)
Lemma leaf_tightens_bound_witness :
  let st := init_store two_point_tree (zeros 128) 1 0 in
  key_le (MinK.max_key
            (ANNprPointMK (ann_pri_search (ANNkd_leaf [1; 0]) 0 st)))
         (MinK.max_key (ANNprPointMK st)).
Proof.
  apply (leaf_tightens_bound 1 [1; 0] 0
           (init_store two_point_tree (zeros 128) 1 0)).
  exact (create_ok 1).
Defined.

(** * Further properties of the search *)

(** ** What every search keeps, whatever the tree *)

Lemma enqueue_far_idx {F : Type} nd far (st : ANNprTempStore_of F) :
  Permutation
    (queue_idx (PrQueue.entries (ANNprBoxPQ (enqueue_far nd far st))))
    (all_idx far ++ queue_idx (PrQueue.entries (ANNprBoxPQ st))).
Proof.
  unfold enqueue_far. destruct (is_trivial far) eqn:E.
  - destruct far; try discriminate. apply Permutation_refl.
  - exact (queue_idx_ins (nd, far) _).
Qed.

Lemma enqueue_path_idx {F : Type} q np :
  forall bd (st : ANNprTempStore_of F),
    ANNprQ st = q ->
    Permutation
      (bucket (near_leaf q np)
       ++ queue_idx (PrQueue.entries (ANNprBoxPQ (enqueue_path np bd st))))
      (all_idx np ++ queue_idx (PrQueue.entries (ANNprBoxPQ st))).
Proof.
  induction np as [| bkt | cd cv clo chi cl IHl ch IHh]; intros bd st HQ;
    cbn [enqueue_path near_leaf bucket all_idx]; cbv zeta.
  - apply Permutation_refl.
  - apply Permutation_refl.
  - rewrite HQ. destruct (nth cd q 0 - cv <? 0).
    + eapply perm_trans;
        [apply IHl; rewrite enqueue_far_Q; exact HQ |].
      rewrite <- app_assoc. apply Permutation_app_head.
      apply enqueue_far_idx.
    + eapply perm_trans;
        [apply IHh; rewrite enqueue_far_Q; exact HQ |].
      eapply perm_trans;
        [apply Permutation_app_head; apply enqueue_far_idx |].
      rewrite !app_assoc. apply Permutation_app_tail, Permutation_app_comm.
Qed.

Section Visited.

Variables (q ps : list Z) (K : nat) (all : list Z) (B : Z).

Context {F : Type} (stop : ANNdist -> ANNprTempStore_of F -> bool).

Lemma dispatch_visited_inv bd np rest (st : ANNprTempStore_of F) :
  visited_inv q ps K all st ->
  PrQueue.extr_min (ANNprBoxPQ st) = Some ((bd, np), rest) ->
  visited_inv q ps K all (ann_pri_search np bd (set_BoxPQ rest st)).
Proof.
  intros (HQ & HP & seen & Hs & Hperm & Hv) Hex.
  unfold PrQueue.extr_min in Hex.
  destruct (PrQueue.entries (ANNprBoxPQ st)) as [| e l] eqn:E;
    [discriminate |].
  inversion Hex; subst e rest. clear Hex.
  set (st1 := set_BoxPQ (PrQueue.mk (PrQueue.max_size (ANNprBoxPQ st)) l) st).
  pose proof (enqueue_path_idx q np bd st1 HQ) as HP2.
  rewrite ann_pri_search_descent.
  change (ANNprQ st1) with (ANNprQ st). rewrite HQ.
  unfold visited_inv.
  cbn [ANNkd_leaf_ann_pri_search set_ptsVisited set_PointMK ANNprQ ANNprPts
       ANNptsVisited ANNprBoxPQ ANNprPointMK].
  destruct (enqueue_path_inputs np bd st1) as (_ & _ & I3 & I4).
  rewrite I3, I4, enqueue_path_PointMK, enqueue_path_visited.
  change (ANNprQ st1) with (ANNprQ st).
  change (ANNprPts st1) with (ANNprPts st).
  change (ANNprPointMK st1) with (ANNprPointMK st).
  change (ANNptsVisited st1) with (ANNptsVisited st).
  rewrite HQ, HP.
  split; [reflexivity |]. split; [reflexivity |].
  exists (rev (bucket (near_leaf q np)) ++ seen). split; [| split].
  - apply leaf_scan_holds. exact Hs.
  - eapply perm_trans; [| exact Hperm].
    rewrite <- app_assoc.
    eapply perm_trans;
      [apply Permutation_app_tail, Permutation_sym, Permutation_rev |].
    eapply perm_trans; [apply Permutation_app_swap_app |].
    apply Permutation_app_head.
    eapply perm_trans; [exact HP2 |]. apply Permutation_refl.
  - rewrite Hv, length_app, length_rev. lia.
Qed.

Lemma pri_iter_with_visited_inv (st st' : ANNprTempStore_of F) np bd :
  visited_inv q ps K all st ->
  pri_iter_with stop B st = Dispatched np bd st' ->
  visited_inv q ps K all st'.
Proof.
  intros Hinv H. pose proof (pri_iter_with_cases stop B st) as C.
  rewrite H in C. destruct C as (rest & Hex & _ & _ & ->).
  eapply dispatch_visited_inv; eassumption.
Qed.

(** The store in which the loop is left. *)
Lemma pri_loop_with_visited :
  forall fuel (st : ANNprTempStore_of F),
    visited_inv q ps K all st ->
    exists seen rest,
      holds_smallest q ps K seen
                     (ANNprPointMK (snd (pri_loop_with stop fuel B st)))
      /\ Permutation (seen ++ rest) all
      /\ ANNptsVisited (snd (pri_loop_with stop fuel B st))
         = Z.of_nat (length seen)
      /\ (fst (pri_loop_with stop fuel B st) = QueueEmpty -> rest = []).
Proof.
  induction fuel as [| fuel IH]; intros st Hinv.
  - destruct Hinv as (_ & _ & seen & Hs & Hperm & Hv).
    exists seen, (queue_idx (PrQueue.entries (ANNprBoxPQ st))).
    cbn [pri_loop_with fst snd].
    split; [exact Hs |]. split; [exact Hperm |]. split; [exact Hv |].
    discriminate.
  - cbn [pri_loop_with]. pose proof (pri_iter_with_cases stop B st) as C.
    destruct (pri_iter_with stop B st) as [why st' | np bd st'] eqn:Eit.
    + destruct Hinv as (_ & _ & seen & Hs & Hperm & Hv).
      exists seen, (queue_idx (PrQueue.entries (ANNprBoxPQ st))).
      cbn [fst snd]. destruct why.
      * destruct C as [-> Hnil].
        split; [exact Hs |]. split; [exact Hperm |]. split; [exact Hv |].
        intros _. rewrite Hnil. reflexivity.
      * destruct C as [-> _].
        split; [exact Hs |]. split; [exact Hperm |]. split; [exact Hv |].
        discriminate.
      * destruct C as (bd & np & rest & _ & _ & -> & _).
        split; [exact Hs |]. split; [exact Hperm |]. split; [exact Hv |].
        discriminate.
      * contradiction.
    + apply IH. eapply pri_iter_with_visited_inv; eassumption.
Qed.

(** The candidate set before the loop holds nothing, and every point of
    the tree is below the root. *)
Lemma init_store_with_visited_inv (maxErr : F) T k :
  0 <= k ->
  visited_inv q (pts T) (Z.to_nat k) (all_idx (root T))
              (init_store_with maxErr T q k).
Proof.
  intros Hk. unfold visited_inv, init_store_with. simpl.
  split; [reflexivity |]. split; [reflexivity |].
  exists []. split; [| split].
  - split; [simpl; lia |]. split; [| constructor].
    unfold MinK.keys, k_smallest. simpl. rewrite firstn_nil. reflexivity.
  - simpl. rewrite app_nil_r. apply Permutation_refl.
  - reflexivity.
Qed.

End Visited.

Lemma pri_iter_visited_inv q ps K all B st np bd st' :
  visited_inv q ps K all st ->
  pri_iter B st = Dispatched np bd st' ->
  visited_inv q ps K all st'.
Proof.
  exact (pri_iter_with_visited_inv q ps K all B bound_reached st st' np bd).
Qed.

(** The store in which the loop is left. *)
Lemma pri_loop_visited q ps K all B :
  forall fuel st,
    visited_inv q ps K all st ->
    exists seen rest,
      holds_smallest q ps K seen (ANNprPointMK (snd (pri_loop fuel B st)))
      /\ Permutation (seen ++ rest) all
      /\ ANNptsVisited (snd (pri_loop fuel B st)) = Z.of_nat (length seen)
      /\ (fst (pri_loop fuel B st) = QueueEmpty -> rest = []).
Proof. exact (pri_loop_with_visited q ps K all B bound_reached). Qed.

Lemma init_visited_inv T q k eps :
  0 <= k ->
  visited_inv q (pts T) (Z.to_nat k) (all_idx (root T)) (init_store T q k eps).
Proof.
  intros Hk. unfold visited_inv, init_store. simpl.
  split; [reflexivity |]. split; [reflexivity |].
  exists []. split; [| split].
  - split; [simpl; lia |]. split; [| constructor].
    unfold MinK.keys, k_smallest. simpl. rewrite firstn_nil. reflexivity.
  - simpl. rewrite app_nil_r. apply Permutation_refl.
  - reflexivity.
Qed.

Lemma reachable_visited_inv T B q k eps st :
  0 <= k -> reachable T B q k eps st ->
  visited_inv q (pts T) (Z.to_nat k) (all_idx (root T)) st.
Proof.
  intros Hk. induction 1 as [| st np bd st' _ IH Hit].
  - apply init_visited_inv. exact Hk.
  - eapply pri_iter_visited_inv; eassumption.
Qed.

Lemma holds_smallest_dd q ps K seen k pmk :
  K = Z.to_nat k ->
  holds_smallest q ps K seen pmk ->
  extract_dd k pmk
  = map Fin (k_smallest K (map (scan_dist q ps) seen))
    ++ repeat ANN_DIST_INF (K - length seen).
Proof.
  intros -> (_ & Hkeys & _). rewrite extract_dd_keys.
  assert (El : length (MinK.items pmk)
               = Nat.min (Z.to_nat k) (length seen)).
  { rewrite <- (length_map fst). fold (MinK.keys pmk). rewrite Hkeys.
    unfold k_smallest.
    rewrite length_firstn, sortZ_length, length_map. reflexivity. }
  rewrite El, Hkeys. unfold k_smallest.
  rewrite firstn_firstn, Nat.min_id. f_equal. f_equal. lia.
Qed.

Lemma best_effort_over_visited_aux T B q k eps :
  0 <= k ->
  exists seen rest : list Z,
    Permutation (seen ++ rest) (all_idx (root T))
    /\ ANNptsVisited (snd (pri_search_run T B q k eps))
       = Z.of_nat (length seen)
    /\ snd (annkPriSearch T B q k eps)
       = map Fin (k_smallest (Z.to_nat k)
                             (map (scan_dist q (pts T)) seen))
         ++ repeat ANN_DIST_INF (Z.to_nat k - length seen).
Proof.
  intros Hk.
  destruct (pri_loop_visited q (pts T) (Z.to_nat k) (all_idx (root T)) B
              (S (kd_size (root T))) (init_store T q k eps)
              (init_visited_inv T q k eps Hk))
    as (seen & rest & Hs & Hperm & Hv & _).
  exists seen, rest. split; [exact Hperm |]. split; [exact Hv |].
  unfold annkPriSearch. cbn [snd].
  apply (holds_smallest_dd q (pts T) (Z.to_nat k)); [reflexivity | exact Hs].
Qed.

(** X2.  Whatever the tree, the error bound and the budget, the distances
    returned are the k smallest among the points that were visited (padded
    with +infinity when fewer than k were visited); the visited points are
    bucket entries of the tree, none taken twice, and the counter of
    visited points is their number. *)
Theorem best_effort_over_visited :
  forall (T : ANNkd_tree) (B : Z) (q : list ANNcoord) (k : Z) (eps : Q),
    0 <= k ->
    exists seen rest : list ANNidx,
      Permutation (seen ++ rest) (all_idx (root T))
      /\ ANNptsVisited (snd (pri_search_run T B q k eps))
         = Z.of_nat (length seen)
      /\ snd (annkPriSearch T B q k eps)
         = map Fin (k_smallest (Z.to_nat k)
                               (map (scan_dist q (pts T)) seen))
           ++ repeat ANN_DIST_INF (Z.to_nat k - length seen).
Proof.
  intros T B q k eps Hk. apply best_effort_over_visited_aux. exact Hk.
Qed.

(** [best_effort_over_visited] at the two-point tree with a budget of one
    point. *)
Lemma best_effort_over_visited_witness :
  exists seen rest : list ANNidx,
    Permutation (seen ++ rest) (all_idx (root two_point_tree))
    /\ ANNptsVisited (snd (pri_search_run two_point_tree 1 (zeros 128) 2 0))
       = Z.of_nat (length seen)
    /\ snd (annkPriSearch two_point_tree 1 (zeros 128) 2 0)
       = map Fin (k_smallest (Z.to_nat 2)
                             (map (scan_dist (zeros 128) (pts two_point_tree))
                                  seen))
         ++ repeat ANN_DIST_INF (Z.to_nat 2 - length seen).
Proof.
  apply (best_effort_over_visited two_point_tree 1 (zeros 128) 2 0). lia.
Defined.

(** ** The output arrays *)

Lemma Forall_firstn_of {A : Type} (P : A -> Prop) (n : nat) :
  forall l, Forall P l -> Forall P (firstn n l).
Proof.
  induction n as [| n IH]; intros l H; [constructor |].
  destruct H; simpl; constructor; auto.
Qed.

Lemma holds_smallest_pairs T q K seen rest k pmk :
  K = Z.to_nat k ->
  Permutation (seen ++ rest) (all_idx (root T)) ->
  holds_smallest q (pts T) K seen pmk ->
  Forall2 (output_pair T q) (extract_nn_idx k pmk) (extract_dd k pmk).
Proof.
  intros -> Hperm (_ & _ & Hitems).
  rewrite extract_nn_idx_infos, extract_dd_keys. unfold MinK.keys.
  apply Forall2_app.
  - rewrite firstn_map.
    assert (Hf : Forall (fun e => fst e = scan_dist q (pts T) (snd e)
                                  /\ In (snd e) seen)
                        (firstn (Z.to_nat k) (MinK.items pmk)))
      by (apply Forall_firstn_of; exact Hitems).
    induction Hf as [| e l [He Hin] _ IH]; simpl; constructor; [| exact IH].
    right. split.
    + eapply Permutation_in; [exact Hperm |]. apply in_or_app. left.
      exact Hin.
    + rewrite He. reflexivity.
  - generalize (Z.to_nat k - length (MinK.items pmk))%nat as n.
    induction n as [| n IH]; simpl; constructor; [| exact IH].
    left. split; reflexivity.
Qed.

(** X3.  Whatever the tree, the error bound and the budget, every pair of
    the output arrays is consistent: [nn_idx[i]] is a bucket entry of the
    tree and [dd[i]] is the distance of that point over the 128 scanned
    coordinates, or the pair is the sentinel (invalid index, +infinity). *)
Theorem output_pairs_consistent :
  forall (T : ANNkd_tree) (B : Z) (q : list ANNcoord) (k : Z) (eps : Q),
    0 <= k ->
    Forall2 (output_pair T q)
            (fst (annkPriSearch T B q k eps))
            (snd (annkPriSearch T B q k eps)).
Proof.
  intros T B q k eps Hk.
  destruct (pri_loop_visited q (pts T) (Z.to_nat k) (all_idx (root T)) B
              (S (kd_size (root T))) (init_store T q k eps)
              (init_visited_inv T q k eps Hk))
    as (seen & rest & Hs & Hperm & _ & _).
  unfold annkPriSearch. cbn [fst snd].
  eapply holds_smallest_pairs; [reflexivity | exact Hperm | exact Hs].
Qed.

(** [output_pairs_consistent] at the two-point tree, more neighbours asked
    for than points stored. *)
Lemma output_pairs_consistent_witness :
  Forall2 (output_pair two_point_tree (zeros 128))
          (fst (annkPriSearch two_point_tree 0 (zeros 128) 3 0))
          (snd (annkPriSearch two_point_tree 0 (zeros 128) 3 0)).
Proof.
  apply (output_pairs_consistent two_point_tree 0 (zeros 128) 3 0). lia.
Defined.

Lemma sorted_keys_padded (l : list Z) (n : nat) :
  StronglySorted Z.le l ->
  StronglySorted key_le (map Fin l ++ repeat ANN_DIST_INF n).
Proof.
  induction 1 as [| y l Hs IH Hy]; simpl.
  - induction n as [| n IHn]; simpl; constructor; [exact IHn |].
    apply Forall_forall. intros x Hx. apply repeat_spec in Hx. subst x.
    exact I.
  - constructor; [exact IH |].
    apply Forall_app. split.
    + apply Forall_map. eapply Forall_impl; [| exact Hy]. simpl. auto.
    + apply Forall_forall. intros x Hx. apply repeat_spec in Hx. subst x.
      exact I.
Qed.

(** X4.  Whatever the tree, the error bound and the budget, the distances
    are returned in ascending order, the +infinity entries last. *)
Theorem output_ascending :
  forall (T : ANNkd_tree) (B : Z) (q : list ANNcoord) (k : Z) (eps : Q),
    0 <= k ->
    StronglySorted key_le (snd (annkPriSearch T B q k eps)).
Proof.
  intros T B q k eps Hk.
  destruct (best_effort_over_visited_aux T B q k eps Hk)
    as (seen & rest & _ & _ & ->).
  apply sorted_keys_padded. unfold k_smallest.
  apply StronglySorted_firstn, sortZ_sorted.
Qed.

(** [output_ascending] at the two-point tree. *)
Lemma output_ascending_witness :
  StronglySorted key_le (snd (annkPriSearch two_point_tree 0 (zeros 128) 3 0)).
Proof.
  apply (output_ascending two_point_tree 0 (zeros 128) 3 0). lia.
Defined.

(** ** Searches with a budget *)




(** ** Exhaustive searches *)

Lemma queue_empty_aux T B q k eps :
  0 <= k ->
  fst (pri_search_run T B q k eps) = QueueEmpty ->
  ANNptsVisited (snd (pri_search_run T B q k eps))
  = Z.of_nat (length (all_idx (root T)))
  /\ snd (annkPriSearch T B q k eps)
     = map Fin (k_smallest (Z.to_nat k)
                           (map (scan_dist q (pts T)) (all_idx (root T))))
       ++ repeat ANN_DIST_INF (Z.to_nat k - length (all_idx (root T))).
Proof.
  intros Hk Hexit.
  destruct (pri_loop_visited q (pts T) (Z.to_nat k) (all_idx (root T)) B
              (S (kd_size (root T))) (init_store T q k eps)
              (init_visited_inv T q k eps Hk))
    as (seen & rest & Hs & Hperm & Hv & Hrest).
  fold (pri_search_run T B q k eps) in Hs, Hv, Hrest.
  rewrite (Hrest Hexit), app_nil_r in Hperm.
  split.
  - rewrite Hv. f_equal. apply Permutation_length. exact Hperm.
  - unfold annkPriSearch. cbn [snd].
    apply (holds_smallest_dd q (pts T) (Z.to_nat k)); [reflexivity |].
    eapply holds_smallest_perm; eassumption.
Qed.

(** X8.  Whatever the tree, the error bound and the budget: when the loop
    ends because the queue is empty, every bucket entry of the tree has been
    scanned exactly once (the counter of visited points is their number)
    and the distances returned are the k smallest over all of them. *)
Theorem queue_empty_exhaustive :
  forall (T : ANNkd_tree) (B : Z) (q : list ANNcoord) (k : Z) (eps : Q),
    0 <= k ->
    fst (pri_search_run T B q k eps) = QueueEmpty ->
    ANNptsVisited (snd (pri_search_run T B q k eps))
    = Z.of_nat (length (all_idx (root T)))
    /\ snd (annkPriSearch T B q k eps)
       = map Fin (k_smallest (Z.to_nat k)
                             (map (scan_dist q (pts T)) (all_idx (root T))))
         ++ repeat ANN_DIST_INF (Z.to_nat k - length (all_idx (root T))).
Proof.
  intros T B q k eps. apply queue_empty_aux.
Qed.

(** [queue_empty_exhaustive] at the two-point tree, three neighbours asked
    for. *)
Lemma queue_empty_exhaustive_witness :
  ANNptsVisited (snd (pri_search_run two_point_tree 0 (zeros 128) 3 0))
  = Z.of_nat (length (all_idx (root two_point_tree)))
  /\ snd (annkPriSearch two_point_tree 0 (zeros 128) 3 0)
     = map Fin (k_smallest (Z.to_nat 3)
                           (map (scan_dist (zeros 128) (pts two_point_tree))
                                (all_idx (root two_point_tree))))
       ++ repeat ANN_DIST_INF
            (Z.to_nat 3 - length (all_idx (root two_point_tree))).
Proof.
  apply (queue_empty_exhaustive two_point_tree 0 (zeros 128) 3 0).
  - lia.
  - vm_compute. reflexivity.
Defined.

(** While the tree holds fewer points than the candidate set has room for,
    the pruning bound stays at +infinity and the loop without budget goes
    on. *)
Lemma pri_loop_never_full q ps K all :
  (length all < K)%nat ->
  forall fuel st,
    visited_inv q ps K all st ->
    fst (pri_loop fuel 0 st) = QueueEmpty
    \/ fst (pri_loop fuel 0 st) = FuelOut.
Proof.
  intros Hshort. induction fuel as [| fuel IH]; intros st Hinv;
    [right; reflexivity |].
  cbn [pri_loop]. pose proof (pri_iter_cases 0 st) as C.
  destruct (pri_iter 0 st) as [why st' | np bd st'] eqn:Eit.
  - cbn [fst]. destruct why; [left; reflexivity | | | contradiction].
    + destruct C as (_ & _ & Hb). discriminate.
    + exfalso. destruct C as (bd & np & rest & _ & _ & -> & Hr).
      unfold bound_reached in Hr.
      change (ANNprPointMK (set_BoxPQ rest st)) with (ANNprPointMK st) in Hr.
      destruct (MinK.max_key (ANNprPointMK st)) as [m |] eqn:Em;
        [| discriminate].
      destruct Hinv as (_ & _ & seen & Hs & Hperm & _).
      destruct (holds_smallest_wf q ps K seen _ Hs) as [Hsort Hlen].
      destruct Hs as (Hk & Hkeys & _).
      destruct (MinK_max_key_Fin K m _ Hk Hsort Hlen Em) as [Hfull _].
      rewrite Hkeys in Hfull. unfold k_smallest in Hfull.
      rewrite length_firstn, sortZ_length, length_map in Hfull.
      apply Permutation_length in Hperm. rewrite length_app in Hperm. lia.
  - apply IH. eapply pri_iter_visited_inv; eassumption.
Qed.

(** X9.  When more neighbours are asked for than the tree holds points,
    a search with [eps = 0] and without budget never prunes, whatever the
    tree: the loop ends on the empty queue, every point is visited, and the
    output is all the distances in ascending order followed by +infinity
    in the k - n places left. *)
Theorem k_beyond_points :
  forall (T : ANNkd_tree) (q : list ANNcoord) (k : Z),
    (length (all_idx (root T)) < Z.to_nat k)%nat ->
    fst (pri_search_run T 0 q k 0) = QueueEmpty
    /\ ANNptsVisited (snd (pri_search_run T 0 q k 0))
       = Z.of_nat (length (all_idx (root T)))
    /\ snd (annkPriSearch T 0 q k 0)
       = map Fin (sortZ (map (scan_dist q (pts T)) (all_idx (root T))))
         ++ repeat ANN_DIST_INF (Z.to_nat k - length (all_idx (root T))).
Proof.
  intros T q k Hshort. generalize 0%Q as eps. intros eps.
  assert (Hk : 0 <= k) by lia.
  assert (Hexit : fst (pri_search_run T 0 q k eps) = QueueEmpty).
  { destruct (pri_loop_never_full q (pts T) (Z.to_nat k) (all_idx (root T))
                Hshort (S (kd_size (root T))) (init_store T q k eps)
                (init_visited_inv T q k eps Hk)) as [H | H]; [exact H |].
    exfalso. exact (pri_search_run_exits T 0 q k eps H). }
  split; [exact Hexit |].
  destruct (queue_empty_aux T 0 q k eps Hk Hexit) as [Hv Hdd].
  split; [exact Hv |]. rewrite Hdd. f_equal. f_equal.
  unfold k_smallest. apply firstn_all2.
  rewrite sortZ_length, length_map. lia.
Qed.

(** [k_beyond_points] at the two-point tree with k = 3. *)
Lemma k_beyond_points_witness :
  fst (pri_search_run two_point_tree 0 (zeros 128) 3 0) = QueueEmpty
  /\ ANNptsVisited (snd (pri_search_run two_point_tree 0 (zeros 128) 3 0))
     = Z.of_nat (length (all_idx (root two_point_tree)))
  /\ snd (annkPriSearch two_point_tree 0 (zeros 128) 3 0)
     = map Fin (sortZ (map (scan_dist (zeros 128) (pts two_point_tree))
                           (all_idx (root two_point_tree))))
       ++ repeat ANN_DIST_INF
            (Z.to_nat 3 - length (all_idx (root two_point_tree))).
Proof.
  apply (k_beyond_points two_point_tree (zeros 128) 3).
  vm_compute. lia.
Defined.

(** ** What every search keeps in a well-formed tree *)













(** ** Sorted lists under further insertions *)

Lemma fold_insZ_sorted S0 R :
  StronglySorted Z.le S0 -> StronglySorted Z.le (fold_right insZ S0 R).
Proof.
  intros H. induction R as [| x R IH]; simpl; [exact H |].
  apply insZ_sorted. exact IH.
Qed.

Lemma fold_insZ_length S0 R :
  length (fold_right insZ S0 R) = (length R + length S0)%nat.
Proof.
  induction R as [| x R IH]; simpl; [reflexivity |].
  rewrite insZ_length, IH. reflexivity.
Qed.

(** More elements do not raise any position of the sorted list. *)
Lemma fold_insZ_nth_le S0 :
  StronglySorted Z.le S0 ->
  forall R i, (i < length S0)%nat ->
              nth i (fold_right insZ S0 R) 0 <= nth i S0 0.
Proof.
  intros Hs. induction R as [| x R IH]; intros i Hi; simpl; [lia |].
  specialize (IH i Hi).
  pose proof (nth_insZ_le x (fold_right insZ S0 R)
                (fold_insZ_sorted S0 R Hs) i) as H.
  rewrite fold_insZ_length in H. specialize (H ltac:(lia)). lia.
Qed.

Lemma nth_map_Fin (l : list Z) (i : nat) :
  (i < length l)%nat -> nth i (map Fin l) ANN_DIST_INF = Fin (nth i l 0).
Proof.
  intros H. rewrite (nth_indep _ ANN_DIST_INF (Fin 0))
    by (rewrite length_map; exact H).
  apply (map_nth Fin).
Qed.

(** ** What a dispatch leaves alone *)

Lemma enqueue_far_adds nd far st :
  exists added,
    Permutation (PrQueue.entries (ANNprBoxPQ (enqueue_far nd far st)))
                (added ++ PrQueue.entries (ANNprBoxPQ st))
    /\ Forall (fun e : PrQueue.entry => is_trivial (snd e) = false) added
    /\ PrQueue.max_size (ANNprBoxPQ (enqueue_far nd far st))
       = PrQueue.max_size (ANNprBoxPQ st).
Proof.
  unfold enqueue_far. destruct (is_trivial far) eqn:E.
  - exists []. split; [apply Permutation_refl |]. split; [constructor |].
    reflexivity.
  - exists [(nd, far)]. split; [| split; [| reflexivity]].
    + simpl. apply Permutation_sym, PrQueue_ins_perm.
    + constructor; [exact E | constructor].
Qed.

Lemma enqueue_path_adds np :
  forall bd st,
    exists added,
      Permutation (PrQueue.entries (ANNprBoxPQ (enqueue_path np bd st)))
                  (added ++ PrQueue.entries (ANNprBoxPQ st))
      /\ Forall (fun e : PrQueue.entry => is_trivial (snd e) = false) added
      /\ PrQueue.max_size (ANNprBoxPQ (enqueue_path np bd st))
         = PrQueue.max_size (ANNprBoxPQ st).
Proof.
  induction np as [| bkt | cd cv clo chi cl IHl ch IHh]; intros bd st;
    cbn [enqueue_path]; cbv zeta;
    try (exists []; split; [apply Permutation_refl |];
         split; [constructor | reflexivity]).
  destruct (_ <? 0).
  - match goal with |- context [enqueue_far ?n ch st] =>
      destruct (enqueue_far_adds n ch st) as (a1 & P1 & F1 & M1);
      destruct (IHl bd (enqueue_far n ch st)) as (a2 & P2 & F2 & M2) end.
    exists (a2 ++ a1). split; [| split].
    + eapply perm_trans; [exact P2 |]. rewrite <- app_assoc.
      apply Permutation_app_head. exact P1.
    + apply Forall_app. split; assumption.
    + congruence.
  - match goal with |- context [enqueue_far ?n cl st] =>
      destruct (enqueue_far_adds n cl st) as (a1 & P1 & F1 & M1);
      destruct (IHh bd (enqueue_far n cl st)) as (a2 & P2 & F2 & M2) end.
    exists (a2 ++ a1). split; [| split].
    + eapply perm_trans; [exact P2 |]. rewrite <- app_assoc.
      apply Permutation_app_head. exact P1.
    + apply Forall_app. split; assumption.
    + congruence.
Qed.

(** X12.  A dispatch (either handler, any node, any store) changes neither
    the query, the points, the dimension field nor the error factor; it
    takes nothing out of the queue, and what it puts in is never the
    trivial leaf. *)
Theorem dispatch_frame :
  forall (np : ANNkd_node) (box_dist : ANNdist) (st : ANNprTempStore),
    let st' := ann_pri_search np box_dist st in
    ANNprMaxErr st' = ANNprMaxErr st /\ ANNprDim st' = ANNprDim st
    /\ ANNprQ st' = ANNprQ st /\ ANNprPts st' = ANNprPts st
    /\ exists added,
         Permutation (PrQueue.entries (ANNprBoxPQ st'))
                     (added ++ PrQueue.entries (ANNprBoxPQ st))
         /\ Forall (fun e : PrQueue.entry => snd e <> KD_TRIVIAL) added.
Proof.
  intros np bd st st'. subst st'.
  destruct (ann_pri_search_inputs np bd st) as (I1 & I2 & I3 & I4).
  repeat (split; [assumption |]).
  rewrite ann_pri_search_descent, leaf_search_BoxPQ.
  destruct (enqueue_path_adds np bd st) as (added & P & F & _).
  exists added. split; [exact P |].
  eapply Forall_impl; [| exact F]. intros e He Heq. cbv beta in He.
  rewrite Heq in He. discriminate.
Qed.

(** ** The box distance handed down *)

Lemma enqueue_far_added nd far st :
  exists added,
    Permutation (PrQueue.entries (ANNprBoxPQ (enqueue_far nd far st)))
                (added ++ PrQueue.entries (ANNprBoxPQ st))
    /\ Forall (fun e : PrQueue.entry => e = (nd, far)) added.
Proof.
  unfold enqueue_far. destruct (is_trivial far).
  - exists []. split; [apply Permutation_refl | constructor].
  - exists [(nd, far)]. split.
    + simpl. apply Permutation_sym, PrQueue_ins_perm.
    + constructor; [reflexivity | constructor].
Qed.

(** What the descent from a well-formed node puts into the queue when it
    starts with the exact distance of the box of the node. *)
Lemma enqueue_path_exact D ps q np :
  forall lo hi st,
    wf_node D ps lo hi np -> ANNprQ st = q ->
    exists added,
      Permutation
        (PrQueue.entries
           (ANNprBoxPQ (enqueue_path np (fbox_dist q lo hi D) st)))
        (added ++ PrQueue.entries (ANNprBoxPQ st))
      /\ Forall (fun e : PrQueue.entry =>
                   exists lo' hi',
                     wf_node D ps lo' hi' (snd e)
                     /\ (forall j, lo j <= lo' j /\ hi' j <= hi j)
                     /\ fst e = fbox_dist q lo' hi' D)
                added.
Proof.
  induction np as [| bkt | cd cv clo chi cl IHl ch IHh];
    intros lo hi st Hwf HQ; cbn [enqueue_path wf_node] in *; cbv zeta;
    try (exists []; split; [apply Permutation_refl | constructor]).
  destruct Hwf as (Hcd & -> & -> & Hcv & Hl & Hh).
  rewrite HQ.
  destruct (split_box_dists q lo hi cd cv D Hcd Hcv) as [Slt Sge].
  destruct (Z.ltb_spec (nth cd q 0 - cv) 0) as [Hx | Hx].
  - destruct (Slt Hx) as [Enear Efar].
    match goal with |- context [enqueue_far ?n ch st] =>
      destruct (enqueue_far_added n ch st) as (a1 & P1 & F1);
      destruct (IHl lo (fupd hi cd cv) (enqueue_far n ch st) Hl)
        as (a2 & P2 & F2);
      [rewrite enqueue_far_Q; exact HQ |]
    end.
    rewrite Enear in P2.
    exists (a2 ++ a1). split.
    + eapply perm_trans; [exact P2 |]. rewrite <- app_assoc.
      apply Permutation_app_head. exact P1.
    + apply Forall_app. split.
      * eapply Forall_impl; [| exact F2].
        intros e (lo' & hi' & Hw & Hsub & He).
        exists lo', hi'. split; [exact Hw |]. split; [| exact He].
        intros j. specialize (Hsub j). unfold fupd in Hsub.
        destruct (Nat.eqb_spec j cd); [subst j |]; lia.
      * eapply Forall_impl; [| exact F1]. intros e ->. cbn [fst snd].
        exists (fupd lo cd cv), hi. split; [exact Hh |].
        split; [| symmetry; exact Efar].
        intros j. unfold fupd.
        destruct (Nat.eqb_spec j cd); [subst j |]; lia.
  - destruct (Sge Hx) as [Enear Efar].
    match goal with |- context [enqueue_far ?n cl st] =>
      destruct (enqueue_far_added n cl st) as (a1 & P1 & F1);
      destruct (IHh (fupd lo cd cv) hi (enqueue_far n cl st) Hh)
        as (a2 & P2 & F2);
      [rewrite enqueue_far_Q; exact HQ |]
    end.
    rewrite Enear in P2.
    exists (a2 ++ a1). split.
    + eapply perm_trans; [exact P2 |]. rewrite <- app_assoc.
      apply Permutation_app_head. exact P1.
    + apply Forall_app. split.
      * eapply Forall_impl; [| exact F2].
        intros e (lo' & hi' & Hw & Hsub & He).
        exists lo', hi'. split; [exact Hw |]. split; [| exact He].
        intros j. specialize (Hsub j). unfold fupd in Hsub.
        destruct (Nat.eqb_spec j cd); [subst j |]; lia.
      * eapply Forall_impl; [| exact F1]. intros e ->. cbn [fst snd].
        exists lo, (fupd hi cd cv). split; [exact Hl |].
        split; [| symmetry; exact Efar].
        intros j. unfold fupd.
        destruct (Nat.eqb_spec j cd); [subst j |]; lia.
Qed.

(** The leaf at the end of the descent from a well-formed node: its box
    lies in the box of the node and is as near to the query. *)
Lemma near_leaf_box D ps q np :
  forall lo hi,
    wf_node D ps lo hi np ->
    exists lo' hi',
      wf_node D ps lo' hi' (near_leaf q np)
      /\ fbox_dist q lo' hi' D = fbox_dist q lo hi D
      /\ forall j, lo j <= lo' j /\ hi' j <= hi j.
Proof.
  induction np as [| bkt | cd cv clo chi cl IHl ch IHh];
    intros lo hi Hwf; cbn [near_leaf].
  - exists lo, hi. split; [exact Hwf |]. split; [reflexivity |].
    intros j. lia.
  - exists lo, hi. split; [exact Hwf |]. split; [reflexivity |].
    intros j. lia.
  - cbn [wf_node] in Hwf. destruct Hwf as (Hcd & -> & -> & Hcv & Hl & Hh).
    destruct (split_box_dists q lo hi cd cv D Hcd Hcv) as [Slt Sge].
    destruct (Z.ltb_spec (nth cd q 0 - cv) 0) as [Hx | Hx].
    + destruct (Slt Hx) as [Enear _].
      destruct (IHl _ _ Hl) as (lo' & hi' & Hw & Hd & Hsub).
      exists lo', hi'. split; [exact Hw |]. split; [congruence |].
      intros j. specialize (Hsub j). unfold fupd in Hsub.
      destruct (Nat.eqb_spec j cd); [subst j |]; lia.
    + destruct (Sge Hx) as [Enear _].
      destruct (IHh _ _ Hh) as (lo' & hi' & Hw & Hd & Hsub).
      exists lo', hi'. split; [exact Hw |]. split; [congruence |].
      intros j. specialize (Hsub j). unfold fupd in Hsub.
      destruct (Nat.eqb_spec j cd); [subst j |]; lia.
Qed.

(** X13.  The [box_dist] that the split handler hands down unchanged to
    the closer child is the exact squared distance from the query to the
    box of that child.  So when a well-formed node is dispatched with the
    exact distance of its box, every entry that the dispatch puts into the
    queue carries the exact squared distance from the query to the box of
    its node, a box inside the box of the node dispatched; and the bucket
    scanned is that of a leaf whose box lies inside the box of the node and
    is exactly as near to the query. *)
Theorem descent_keeps_box_distance :
  forall (D : nat) (ps : list ANNcoord) (np : ANNkd_node)
         (lo hi : nat -> ANNcoord) (st : ANNprTempStore),
    wf_node D ps lo hi np ->
    let q := ANNprQ st in
    let st' := ann_pri_search np (fbox_dist q lo hi D) st in
    (exists added,
        Permutation (PrQueue.entries (ANNprBoxPQ st'))
                    (added ++ PrQueue.entries (ANNprBoxPQ st))
        /\ Forall (fun e : PrQueue.entry =>
                     exists lo' hi',
                       wf_node D ps lo' hi' (snd e)
                       /\ (forall j, lo j <= lo' j /\ hi' j <= hi j)
                       /\ fst e = fbox_dist q lo' hi' D)
                  added)
    /\ ANNptsVisited st'
       = ANNptsVisited st + Z.of_nat (length (bucket (near_leaf q np)))
    /\ exists lo' hi',
         wf_node D ps lo' hi' (near_leaf q np)
         /\ fbox_dist q lo' hi' D = fbox_dist q lo hi D
         /\ forall j, lo j <= lo' j /\ hi' j <= hi j.
Proof.
  intros D ps np lo hi st Hwf q st'. subst st'. split; [| split].
  - rewrite ann_pri_search_descent, leaf_search_BoxPQ.
    apply enqueue_path_exact; [exact Hwf | reflexivity].
  - apply dispatch_counts_bucket.
  - apply near_leaf_box. exact Hwf.
Qed.

(** [descent_keeps_box_distance] at the root of the three-leaf tree, in
    the store from which the root is dispatched. *)
Lemma descent_keeps_box_distance_witness :
  let T := three_leaf_tree in
  let lo := fun j => nth j (bnd_box_lo T) 0 in
  let hi := fun j => nth j (bnd_box_hi T) 0 in
  let st := set_BoxPQ (PrQueue.create 4) (init_store T (zeros 128) 1 0) in
  let q := ANNprQ st in
  let st' := ann_pri_search (root T) (fbox_dist q lo hi 128) st in
  (exists added,
      Permutation (PrQueue.entries (ANNprBoxPQ st'))
                  (added ++ PrQueue.entries (ANNprBoxPQ st))
      /\ Forall (fun e : PrQueue.entry =>
                   exists lo' hi',
                     wf_node 128 (pts T) lo' hi' (snd e)
                     /\ (forall j, lo j <= lo' j /\ hi' j <= hi j)
                     /\ fst e = fbox_dist q lo' hi' 128)
                added)
  /\ ANNptsVisited st'
     = ANNptsVisited st
       + Z.of_nat (length (bucket (near_leaf q (root T))))
  /\ exists lo' hi',
       wf_node 128 (pts T) lo' hi' (near_leaf q (root T))
       /\ fbox_dist q lo' hi' 128 = fbox_dist q lo hi 128
       /\ forall j, lo j <= lo' j /\ hi' j <= hi j.
Proof.
  apply (descent_keeps_box_distance 128 (pts three_leaf_tree)
           (root three_leaf_tree)
           (fun j => nth j (bnd_box_lo three_leaf_tree) 0)
           (fun j => nth j (bnd_box_hi three_leaf_tree) 0)).
  exact (proj1 three_leaf_tree_wf).
Defined.

(** ** Edge cases of the budget *)

(** X14.  A negative budget stops the search before the first node is
    taken from the queue: no point is visited and all k entries returned
    are the sentinel (invalid index, +infinity), whatever the tree. *)
Theorem negative_budget_returns_nothing :
  forall (T : ANNkd_tree) (B : Z) (q : list ANNcoord) (k : Z) (eps : Q),
    B < 0 ->
    pri_search_run T B q k eps = (BudgetExceeded, init_store T q k eps)
    /\ annkPriSearch T B q k eps
       = (repeat ANN_NULL_IDX (Z.to_nat k), repeat ANN_DIST_INF (Z.to_nat k)).
Proof.
  intros T B q k eps HB.
  assert (E : pri_search_run T B q k eps
              = (BudgetExceeded, init_store T q k eps)).
  { unfold pri_search_run. cbn [pri_loop]. unfold pri_iter, init_store.
    cbn [PrQueue.insert PrQueue.create PrQueue.entries PrQueue.ins
         PrQueue.extr_min ANNprBoxPQ PrQueue.max_size].
    assert (Eb : forall st, ANNptsVisited st = 0 -> over_budget B st = true).
    { intros st Hv. apply over_budget_iff. lia. }
    rewrite Eb by reflexivity. reflexivity. }
  split; [exact E |].
  unfold annkPriSearch. rewrite E. cbn [snd init_store ANNprPointMK].
  rewrite extract_nn_idx_infos, extract_dd_keys.
  unfold MinK.keys, MinK.create. cbn [MinK.items map length].
  rewrite !firstn_nil, Nat.sub_0_r. reflexivity.
Qed.

(** [negative_budget_returns_nothing] at the two-point tree. *)
Lemma negative_budget_returns_nothing_witness :
  pri_search_run two_point_tree (-1) (zeros 128) 2 0
  = (BudgetExceeded, init_store two_point_tree (zeros 128) 2 0)
  /\ annkPriSearch two_point_tree (-1) (zeros 128) 2 0
     = (repeat ANN_NULL_IDX (Z.to_nat 2), repeat ANN_DIST_INF (Z.to_nat 2)).
Proof.
  apply (negative_budget_returns_nothing two_point_tree (-1) (zeros 128) 2 0).
  lia.
Defined.

(** ** The cell of the query *)

Lemma dispatch_scanned_inv q ps K base bd np st :
  scanned_inv q ps K base st ->
  scanned_inv q ps K (bucket (near_leaf q np) ++ base)
              (ann_pri_search np bd st).
Proof.
  intros (HQ & HP & seen & Hs & Hin).
  destruct (ann_pri_search_inputs np bd st) as (_ & _ & I3 & I4).
  split; [rewrite I3; exact HQ |]. split; [rewrite I4; exact HP |].
  rewrite ann_pri_search_descent.
  cbn [ANNkd_leaf_ann_pri_search set_ptsVisited set_PointMK ANNprPointMK].
  destruct (enqueue_path_inputs np bd st) as (_ & _ & J3 & J4).
  rewrite J3, J4, enqueue_path_PointMK, HQ, HP.
  exists (rev (bucket (near_leaf q np)) ++ seen). split.
  - apply leaf_scan_holds. exact Hs.
  - intros i Hi. apply in_or_app. apply in_app_or in Hi.
    destruct Hi as [Hi | Hi].
    + left. apply in_rev in Hi. exact Hi.
    + right. apply Hin. exact Hi.
Qed.

Lemma scanned_inv_weaken q ps K base base' st :
  incl base' base -> scanned_inv q ps K base st -> scanned_inv q ps K base' st.
Proof.
  intros Hi (HQ & HP & seen & Hs & Hin).
  split; [exact HQ |]. split; [exact HP |].
  exists seen. split; [exact Hs |]. intros i H. auto.
Qed.

(** What has been scanned stays scanned until the loop is left. *)
Lemma pri_loop_scanned q ps K base B :
  forall fuel st,
    scanned_inv q ps K base st ->
    scanned_inv q ps K base (snd (pri_loop fuel B st)).
Proof.
  induction fuel as [| fuel IH]; intros st Hinv; [exact Hinv |].
  cbn [pri_loop]. pose proof (pri_iter_cases B st) as C.
  destruct (pri_iter B st) as [why st' | np bd st'].
  - cbn [snd]. destruct why.
    + destruct C as [-> _]. exact Hinv.
    + destruct C as [-> _]. exact Hinv.
    + destruct C as (bd & np & rest & _ & _ & -> & _). exact Hinv.
    + contradiction.
  - destruct C as (rest & _ & _ & _ & ->). apply IH.
    eapply scanned_inv_weaken;
      [| apply dispatch_scanned_inv with (st := set_BoxPQ rest st);
         exact Hinv].
    intros i Hi. apply in_or_app. right. exact Hi.
Qed.

Lemma sortZ_head_le (l : list Z) (x : Z) :
  In x l -> nth 0 (sortZ l) 0 <= x.
Proof.
  intros Hx.
  assert (Hin : In x (sortZ l))
    by (eapply Permutation_in; [apply sortZ_perm_self | exact Hx]).
  pose proof (sortZ_sorted l) as Hs.
  destruct (sortZ l) as [| y s]; [contradiction |].
  simpl. destruct Hin as [-> | Hin]; [lia |].
  inversion Hs as [| ? ? _ Hy]; subst.
  rewrite Forall_forall in Hy. apply Hy. exact Hin.
Qed.

(** X15.  With [eps = 0] the bucket of the leaf that the descent from the
    root reaches for the query is always scanned: whatever the tree, for
    k >= 1 and a budget that is not negative, the first distance returned
    is at most the distance of every point of that bucket. *)
Theorem own_cell_always_scanned :
  forall (T : ANNkd_tree) (B : Z) (q : list ANNcoord) (k : Z) (i : ANNidx),
    1 <= k -> 0 <= B ->
    In i (bucket (near_leaf q (root T))) ->
    exists r : ANNdist,
      nth 0 (snd (annkPriSearch T B q k 0)) ANN_DIST_INF = Fin r
      /\ r <= scan_dist q (pts T) i.
Proof.
  intros T B q k i Hk HB Hi. generalize 0%Q as eps. intros eps.
  set (K := Z.to_nat k).
  assert (Hrun : scanned_inv q (pts T) K (bucket (near_leaf q (root T)))
                             (snd (pri_search_run T B q k eps))).
  { unfold pri_search_run. cbn [pri_loop].
    assert (E : exists rest,
               pri_iter B (init_store T q k eps)
               = Dispatched (root T)
                   (annBoxDistance q (bnd_box_lo T) (bnd_box_hi T) (dim T))
                   (ann_pri_search (root T)
                      (annBoxDistance q (bnd_box_lo T) (bnd_box_hi T) (dim T))
                      (set_BoxPQ rest (init_store T q k eps)))).
    { unfold pri_iter, init_store.
      cbn [PrQueue.insert PrQueue.create PrQueue.entries PrQueue.ins
           PrQueue.extr_min ANNprBoxPQ PrQueue.max_size].
      assert (Eb : forall st, ANNptsVisited st = 0 ->
                              over_budget B st = false).
      { intros st Hv. destruct (over_budget B st) eqn:E; [| reflexivity].
        apply over_budget_iff in E. lia. }
      rewrite Eb by reflexivity.
      unfold bound_reached. cbn [set_BoxPQ ANNprPointMK].
      rewrite max_key_create. eexists. reflexivity. }
    destruct E as (rest & ->).
    apply pri_loop_scanned.
    eapply scanned_inv_weaken;
      [| apply dispatch_scanned_inv with (base := @nil Z)].
    - intros j Hj. apply in_or_app. left. exact Hj.
    - split; [reflexivity |]. split; [reflexivity |].
      exists []. split; [| intros j []].
      split; [simpl; unfold K; lia |]. split; [| constructor].
      unfold MinK.keys, k_smallest. simpl. rewrite firstn_nil. reflexivity. }
  destruct Hrun as (_ & _ & seen & Hs & Hin).
  assert (Hseen : In i seen) by (apply Hin; exact Hi).
  exists (nth 0 (sortZ (map (scan_dist q (pts T)) seen)) 0). split.
  - unfold annkPriSearch. cbn [snd].
    rewrite (holds_smallest_dd q (pts T) K seen k _ eq_refl Hs).
    unfold k_smallest.
    assert (Hl : (0 < length seen)%nat)
      by (destruct seen; [contradiction | simpl; lia]).
    rewrite app_nth1
      by (rewrite length_map, length_firstn, sortZ_length, length_map;
          unfold K; lia).
    rewrite nth_map_Fin
      by (rewrite length_firstn, sortZ_length, length_map; unfold K; lia).
    rewrite nth_firstn.
    destruct (Nat.ltb_spec 0 K); [reflexivity | unfold K in *; lia].
  - apply sortZ_head_le. apply in_map. exact Hseen.
Qed.

(** [own_cell_always_scanned] at the two-point tree with a budget of one
    point. *)
Lemma own_cell_always_scanned_witness :
  exists r : Z,
    nth 0 (snd (annkPriSearch two_point_tree 1 (zeros 128) 1 0)) ANN_DIST_INF
    = Fin r
    /\ r <= scan_dist (zeros 128) (pts two_point_tree) 0.
Proof.
  apply (own_cell_always_scanned two_point_tree 1 (zeros 128) 1 0).
  - lia.
  - lia.
  - vm_compute. left. reflexivity.
Defined.

(** ** Best effort is never better than the truth *)

Lemma nth_padded_Fin (l : list Z) (n i : nat) (r : Z) :
  nth i (map Fin l ++ repeat ANN_DIST_INF n) ANN_DIST_INF = Fin r ->
  (i < length l)%nat /\ r = nth i l 0.
Proof.
  intros H. destruct (Nat.lt_ge_cases i (length l)) as [Hi | Hi].
  - split; [exact Hi |].
    rewrite app_nth1 in H by (rewrite length_map; exact Hi).
    rewrite nth_map_Fin in H by exact Hi. inversion H. reflexivity.
  - exfalso. rewrite app_nth2 in H by (rewrite length_map; exact Hi).
    rewrite nth_repeat in H. discriminate.
Qed.

(** X16.  Whatever the budget and the error bound, a distance that the
    search returns in place i is never below the i-th smallest squared
    distance computed by brute force (well-formed tree of dimension 128,
    query of 128 coordinates). *)
Theorem results_never_below_truth :
  forall (T : ANNkd_tree) (B : Z) (q : list ANNcoord) (k : Z) (eps : Q)
         (i : nat) (r : ANNdist),
    wf_tree T -> dim T = SCAN_WIDTH -> length q = SCAN_WIDTH -> 0 <= k ->
    nth i (snd (annkPriSearch T B q k eps)) ANN_DIST_INF = Fin r ->
    nth i (sortZ (brute_force_dists T q)) 0 <= r.
Proof.
  intros T B q k eps i r (_ & Hall & Hlen) Hdim Hq Hk Hr.
  destruct (best_effort_over_visited_aux T B q k eps Hk)
    as (seen & rest & Hperm & _ & Hdd).
  rewrite Hdd in Hr. apply nth_padded_Fin in Hr. destruct Hr as [Hi ->].
  unfold k_smallest in *. rewrite length_firstn in Hi.
  rewrite nth_firstn.
  destruct (Nat.ltb_spec i (Z.to_nat k)) as [_ | Hc]; [| lia].
  assert (Hbf : sortZ (brute_force_dists T q)
                = fold_right insZ (sortZ (map (scan_dist q (pts T)) seen))
                             (map (scan_dist q (pts T)) rest)).
  { rewrite <- (scan_dists_brute_force T q Hdim Hq Hlen).
    rewrite <- sortZ_app, <- map_app.
    apply sortZ_perm, Permutation_map.
    eapply perm_trans; [apply Permutation_sym; exact Hall |].
    eapply perm_trans; [apply Permutation_sym; exact Hperm |].
    apply Permutation_app_comm. }
  rewrite Hbf. apply fold_insZ_nth_le; [apply sortZ_sorted | lia].
Qed.

(** [results_never_below_truth] at the two-point tree with a budget of one
    point. *)
Lemma results_never_below_truth_witness :
  nth 0 (sortZ (brute_force_dists two_point_tree (zeros 128))) 0 <= 0.
Proof.
  apply (results_never_below_truth two_point_tree 1 (zeros 128) 1 0 0 0).
  - exact two_point_tree_wf.
  - reflexivity.
  - reflexivity.
  - lia.
  - vm_compute. reflexivity.
Defined.

(** * The search in any arithmetic of the doubles

    What the search guarantees whatever evaluates its termination test,
    hence in the double arithmetic of the code as in exact arithmetic. *)

(** X17.  The search returns: the loop is left through one of its own
    exits, within as many iterations as the tree has nodes (more fuel than
    that does not change the result), and both output arrays receive [k]
    entries. *)
Theorem search_returns_any_arithmetic :
  forall (F : Type) (stop : ANNdist -> ANNprTempStore_of F -> bool)
         (maxErr : F) (T : ANNkd_tree) (B : Z) (q : list ANNcoord) (k : Z),
    fst (pri_search_run_with stop maxErr T B q k) <> FuelOut
    /\ (forall fuel,
           (kd_size (root T) < fuel)%nat ->
           pri_loop_with stop fuel B (init_store_with maxErr T q k)
           = pri_search_run_with stop maxErr T B q k)
    /\ length (fst (annkPriSearch_with stop maxErr T B q k)) = Z.to_nat k
    /\ length (snd (annkPriSearch_with stop maxErr T B q k)) = Z.to_nat k.
Proof.
  intros F stop maxErr T B q k.
  split; [apply pri_search_run_with_exits |].
  split.
  - intros fuel Hf. unfold pri_search_run_with.
    apply pri_loop_with_fuel_irrelevant; rewrite init_store_with_weight; lia.
  - split; [apply extract_nn_idx_length | apply extract_dd_length].
Qed.

Lemma best_effort_with_aux {F : Type}
      (stop : ANNdist -> ANNprTempStore_of F -> bool) (maxErr : F) T B q k :
  0 <= k ->
  exists seen rest : list Z,
    holds_smallest q (pts T) (Z.to_nat k) seen
      (ANNprPointMK (snd (pri_search_run_with stop maxErr T B q k)))
    /\ Permutation (seen ++ rest) (all_idx (root T))
    /\ ANNptsVisited (snd (pri_search_run_with stop maxErr T B q k))
       = Z.of_nat (length seen)
    /\ snd (annkPriSearch_with stop maxErr T B q k)
       = map Fin (k_smallest (Z.to_nat k)
                             (map (scan_dist q (pts T)) seen))
         ++ repeat ANN_DIST_INF (Z.to_nat k - length seen)
    /\ (fst (pri_search_run_with stop maxErr T B q k) = QueueEmpty ->
        rest = []).
Proof.
  intros Hk.
  destruct (pri_loop_with_visited q (pts T) (Z.to_nat k) (all_idx (root T)) B
              stop (S (kd_size (root T))) (init_store_with maxErr T q k)
              (init_store_with_visited_inv q maxErr T k Hk))
    as (seen & rest & Hs & Hperm & Hv & Hq).
  exists seen, rest.
  split; [exact Hs |]. split; [exact Hperm |]. split; [exact Hv |].
  split; [| exact Hq].
  unfold annkPriSearch_with. cbn [snd].
  apply (holds_smallest_dd q (pts T) (Z.to_nat k)); [reflexivity | exact Hs].
Qed.

(** X18.  Best effort: every pair of the output arrays is a point of the
    tree with its distance or the sentinel, the distances are in ascending
    order and are the k smallest among the points visited (+infinity beyond
    them), the count of visited points is their number, and when the loop
    ends on the empty queue every point of the tree has been visited. *)
Theorem best_effort_any_arithmetic :
  forall (F : Type) (stop : ANNdist -> ANNprTempStore_of F -> bool)
         (maxErr : F) (T : ANNkd_tree) (B : Z) (q : list ANNcoord) (k : Z),
    0 <= k ->
    let run := pri_search_run_with stop maxErr T B q k in
    let out := annkPriSearch_with stop maxErr T B q k in
    Forall2 (output_pair T q) (fst out) (snd out)
    /\ StronglySorted key_le (snd out)
    /\ exists seen rest : list ANNidx,
         Permutation (seen ++ rest) (all_idx (root T))
         /\ ANNptsVisited (snd run) = Z.of_nat (length seen)
         /\ snd out
            = map Fin (k_smallest (Z.to_nat k)
                                  (map (scan_dist q (pts T)) seen))
              ++ repeat ANN_DIST_INF (Z.to_nat k - length seen)
         /\ (fst run = QueueEmpty -> rest = []).
Proof.
  intros F stop maxErr T B q k Hk run out.
  destruct (best_effort_with_aux stop maxErr T B q k Hk)
    as (seen & rest & Hs & Hperm & Hv & Hdd & Hq).
  split; [| split].
  - subst out. unfold annkPriSearch_with. cbn [fst snd].
    eapply holds_smallest_pairs; [reflexivity | exact Hperm | exact Hs].
  - subst out. rewrite Hdd. apply sorted_keys_padded. unfold k_smallest.
    apply StronglySorted_firstn, sortZ_sorted.
  - exists seen, rest. repeat (split; [assumption |]). exact Hq.
Qed.

(** [best_effort_any_arithmetic] in binary64 arithmetic, at
    [rounding_tree] with [eps = rounding_eps]. *)
Lemma best_effort_any_arithmetic_witness :
  let T := rounding_tree in
  let q := zeros 128 in
  let run := pri_search_run_ieee infinity T 0 q 1 rounding_eps in
  let out := annkPriSearch_ieee infinity T 0 q 1 rounding_eps in
  Forall2 (output_pair T q) (fst out) (snd out)
  /\ StronglySorted key_le (snd out)
  /\ exists seen rest : list ANNidx,
       Permutation (seen ++ rest) (all_idx (root T))
       /\ ANNptsVisited (snd run) = Z.of_nat (length seen)
       /\ snd out
          = map Fin (k_smallest (Z.to_nat 1)
                                (map (scan_dist q (pts T)) seen))
            ++ repeat ANN_DIST_INF (Z.to_nat 1 - length seen)
       /\ (fst run = QueueEmpty -> rest = []).
Proof.
  apply (best_effort_any_arithmetic float (bound_reached_ieee infinity)
           (ANN_POW_ieee (1 + rounding_eps)%float) rounding_tree 0
           (zeros 128) 1).
  lia.
Defined.

(** X19.  In a well-formed tree of dimension 128, queried with 128
    coordinates, a distance returned in place i is never below the i-th
    smallest squared distance computed by brute force. *)
Theorem never_below_truth_any_arithmetic :
  forall (F : Type) (stop : ANNdist -> ANNprTempStore_of F -> bool)
         (maxErr : F) (T : ANNkd_tree) (B : Z) (q : list ANNcoord) (k : Z)
         (i : nat) (r : ANNdist),
    wf_tree T -> dim T = SCAN_WIDTH -> length q = SCAN_WIDTH -> 0 <= k ->
    nth i (snd (annkPriSearch_with stop maxErr T B q k)) ANN_DIST_INF
    = Fin r ->
    nth i (sortZ (brute_force_dists T q)) 0 <= r.
Proof.
  intros F stop maxErr T B q k i r (_ & Hall & Hlen) Hdim Hq Hk Hr.
  destruct (best_effort_with_aux stop maxErr T B q k Hk)
    as (seen & rest & _ & Hperm & _ & Hdd & _).
  rewrite Hdd in Hr. apply nth_padded_Fin in Hr. destruct Hr as [Hi ->].
  unfold k_smallest in *. rewrite length_firstn in Hi.
  rewrite nth_firstn.
  destruct (Nat.ltb_spec i (Z.to_nat k)) as [_ | Hc]; [| lia].
  assert (Hbf : sortZ (brute_force_dists T q)
                = fold_right insZ (sortZ (map (scan_dist q (pts T)) seen))
                             (map (scan_dist q (pts T)) rest)).
  { rewrite <- (scan_dists_brute_force T q Hdim Hq Hlen).
    rewrite <- sortZ_app, <- map_app.
    apply sortZ_perm, Permutation_map.
    eapply perm_trans; [apply Permutation_sym; exact Hall |].
    eapply perm_trans; [apply Permutation_sym; exact Hperm |].
    apply Permutation_app_comm. }
  rewrite Hbf. apply fold_insZ_nth_le; [apply sortZ_sorted | lia].
Qed.

(** [never_below_truth_any_arithmetic] in binary64 arithmetic, at
    [rounding_tree] with [eps = rounding_eps]: the distance returned is 1,
    the smallest distance. *)
Lemma never_below_truth_any_arithmetic_witness :
  nth 0 (sortZ (brute_force_dists rounding_tree (zeros 128))) 0 <= 1.
Proof.
  apply (never_below_truth_any_arithmetic float (bound_reached_ieee infinity)
           (ANN_POW_ieee (1 + rounding_eps)%float) rounding_tree 0
           (zeros 128) 1 0 1).
  - exact rounding_tree_wf.
  - reflexivity.
  - reflexivity.
  - lia.
  - vm_compute. reflexivity.
Defined.
